(** * GloVe: co-occurrence statistics and weighted loss (glove.py)

    A shallow embedding of [glove.py]: the window extractor ([_window],
    [_context_windows]), the corpus scan, vocabulary selection and matrix
    assembly of [GloVe.fit], the window-size handling of [GloVe.__init__] and
    the loss of [GloVe.forward].

    Conventions.
    - Python [int] is [Z]; list indices and counts of occurrences are [nat].
    - A token is a [string]; a region (sentence) is a [list string].
    - [Counter] is an association list in insertion order (the order decides
      ties in [most_common]); [defaultdict(float)] keyed by pairs of tokens is
      a [gmap].
    - Co-occurrence weights [1 / (i + 1)] are kept twice: as exact
      rationals ([Qc], [scan_corpus]), which decide the keys, the counts and
      the totals, and as the binary64 floats Python holds
      ([scan_corpus_float]), for statements that depend on the rounding of
      [+=]. The two scans have the same keys and the same word counts.
    - The loss is computed over the reals; it is the code's value, up to
      rounding, for a positive cutoff [x_max] and positive counts, where
      [pow] and [log] are defined.
    - Exceptions are values of [exn]; a method that mutates [self] and may
      raise returns the final object together with [option exn]. *)

From Stdlib Require Import ZArith QArith Qcanon Reals Lra Lia Floats Uint63.
From stdpp Require Import gmap strings list fin_maps sorting.

Open Scope Z_scope.

(** ** Python runtime pieces used by the module *)

Module Py.

(** Exceptions raised by the code or by the runtime on its behalf. *)
Inductive exn : Type :=
| ValueError (msg : string)
| KeyError
| IndexError
| RuntimeError.

#[global] Instance exn_eq_dec : EqDecision exn.
Proof. solve_decision. Defined.

(** Outcome of a computation that may raise. *)
Inductive result (A : Type) : Type :=
| Ok (a : A)
| Raise (e : exn).
#[global] Arguments Ok {A} a.
#[global] Arguments Raise {A} e.

#[global] Instance result_ret : MRet result := fun A a => Ok a.
#[global] Instance result_bind : MBind result := fun A B f r =>
  match r with Ok a => f a | Raise e => Raise e end.

(** Clamping of one slice bound against a sequence of length [n]:
    a negative bound counts from the end, and every bound is cut to
    [0..n]. *)
Definition slice_bound (n i : Z) : Z :=
  if i <? 0 then Z.max (i + n) 0 else Z.min i n.

(** [l[start:stop]] *)
Definition slice {A : Type} (l : list A) (start stop : Z) : list A :=
  let n := Z.of_nat (length l) in
  let s := slice_bound n start in
  let e := slice_bound n stop in
  take (Z.to_nat (e - s)) (drop (Z.to_nat s) l).

(** [enumerate(l)] *)
Definition enumerate {A : Type} (l : list A) : list (nat * A) :=
  imap (fun i x => (i, x)) l.

End Py.

Abbreviation token := string (only parsing).
Abbreviation region := (list string) (only parsing).

(** ** Window extraction *)

(** [_window(region, start_index, end_index)] *)
Definition _window (r : region) (start_index end_index : Z) : region :=
  let last_index := Z.of_nat (length r) + 1 in
  Py.slice r (Z.max start_index 0) (Z.min end_index last_index + 1).

(** [_context_windows(region, left_size, right_size)]: the triples the
    generator yields, in order. *)
Definition _context_windows (r : region) (left_size right_size : Z)
  : list (region * token * region) :=
  imap (fun (i : nat) (word : token) =>
          let i := Z.of_nat i in
          let start_index := i - left_size in
          let end_index := i + right_size in
          let left_context := _window r start_index (i - 1) in
          let right_context := _window r (i + 1) end_index in
          (left_context, word, right_context)) r.

(** The tokens of [r] at the indices [lo, lo+1, .., hi] (none if [hi < lo]),
    in that order. Used to state what a window contains. *)
Definition tokens_between (r : region) (lo hi : Z) : list (option token) :=
  (fun j => r !! (Z.to_nat lo + j)%nat) <$> seq 0 (Z.to_nat (hi + 1 - lo)).

(** ** Corpus scan: word counts and co-occurrence counts *)

(** A [Counter] of tokens, keys in insertion order. *)
Abbreviation counter := (list (token * nat)) (only parsing).
(** The [defaultdict(float)] of pair weights. *)
Abbreviation cooccurrences := (gmap (token * token) Qc) (only parsing).

(** [c[w] += 1] on a [Counter]: an existing key keeps its place, a new key
    goes last. *)
Fixpoint counter_incr (c : counter) (w : token) : counter :=
  match c with
  | [] => [(w, 1%nat)]
  | (k, n) :: c' =>
      if decide (k = w) then (k, S n) :: c' else (k, n) :: counter_incr c' w
  end.

(** [c[w]] on a [Counter]: [0] for a missing key. *)
Fixpoint counter_get (c : counter) (w : token) : nat :=
  match c with
  | [] => 0%nat
  | (k, n) :: c' => if decide (k = w) then n else counter_get c' w
  end.

(** [word_counts.update(region)] *)
Definition counter_update (c : counter) (r : region) : counter :=
  foldl counter_incr c r.

(** [1 / (i + 1)] *)
Definition inv_distance (i : nat) : Qc := Q2Qc (1 # Pos.of_succ_nat i).

(** [d[key] += w] on a [defaultdict(float)]: a missing key reads as [0.0].
    The sum is exact here; [add_weight_float] below rounds it as Python
    does. *)
Definition add_weight (d : cooccurrences) (key : token * token) (w : Qc)
  : cooccurrences :=
  <[key := (default 0 (d !! key) + w)%Qc]> d.

(** One inner loop of [fit]:
    [for i, context_word in enumerate(context):
         cooccurence_counts[(word, context_word)] += 1 / (i + 1)] *)
Definition add_context (word : token) (d : cooccurrences) (context : region)
  : cooccurrences :=
  foldl (fun d '(i, context_word) =>
           add_weight d (word, context_word) (inv_distance i))
        d (Py.enumerate context).

(** Body of the loop over the windows of one region: the left context is
    walked reversed ([left_context[::-1]]), then the right context. *)
Definition scan_window (d : cooccurrences) (w : region * token * region)
  : cooccurrences :=
  let '(left_context, word, right_context) := w in
  let d := add_context word d (reverse left_context) in
  add_context word d right_context.

(** Body of [for region in corpus]. *)
Definition scan_region (left_size right_size : Z)
    (acc : counter * cooccurrences) (r : region) : counter * cooccurrences :=
  let word_counts := counter_update acc.1 r in
  let cooccurence_counts :=
    foldl scan_window acc.2 (_context_windows r left_size right_size) in
  (word_counts, cooccurence_counts).

(** The whole scan, from given accumulators. *)
Definition scan_from (left_size right_size : Z)
    (acc : counter * cooccurrences) (corpus : list region)
  : counter * cooccurrences :=
  foldl (scan_region left_size right_size) acc corpus.

(** The scan of [fit]: both accumulators start empty. *)
Definition scan_corpus (left_size right_size : Z) (corpus : list region)
  : counter * cooccurrences :=
  scan_from left_size right_size ([], ∅) corpus.

(** Key-by-key sum of two co-occurrence maps (a missing key counts as 0). *)
Definition merge_cooccurrences (d1 d2 : cooccurrences) : cooccurrences :=
  union_with (fun a b => Some (a + b)%Qc) d1 d2.

(** The weight read at a key, [0] when the key is missing. *)
Definition weight_at (d : gmap (token * token) Qc) (key : token * token) : Qc :=
  default 0%Qc (d !! key).

(** What one walk over a context adds for the context token [b]: [1/(k+1)]
    for every position [k] at which [b] stands. *)
Definition context_weight (context : region) (b : token) : Qc :=
  foldr (fun '(k, c) acc => ((if decide (c = b) then inv_distance k else 0) + acc)%Qc)
        0%Qc (Py.enumerate context).

(** An update of the co-occurrence map commutes with merging when running
    it on the second operand of a merge is running it on the merged map. *)
Definition merges {X : Type}
    (op : gmap (token * token) Qc -> X -> gmap (token * token) Qc) : Prop :=
  forall d1 d2 x,
    op (merge_cooccurrences d1 d2) x = merge_cooccurrences d1 (op d2 x).

(** An update of the co-occurrence map keeps the keys it finds. *)
Definition keeps_keys {X : Type}
    (op : gmap (token * token) Qc -> X -> gmap (token * token) Qc) : Prop :=
  forall d x key, is_Some (d !! key) -> is_Some (op d x !! key).

(** ** Vocabulary *)

(** Insertion into a list sorted by descending count; the new entry goes
    before the first entry whose count is not larger. *)
Fixpoint insert_desc (x : token * nat) (l : counter) : counter :=
  match l with
  | [] => [x]
  | y :: l' => if (x.2 <? y.2)%nat then y :: insert_desc x l' else x :: l
  end.

(** [sorted(c.items(), key=count, reverse=True)]: descending by count, entries
    of equal count in their original order (Python's sort is stable, also
    with [reverse=True]). *)
Definition sorted_desc (c : counter) : counter := foldr insert_desc [] c.

(** [Counter.most_common(n)] of the Python standard library:
    [heapq.nlargest(n, items, key=count)], documented as
    [sorted(items, key=count, reverse=True)[:n]]; nothing for [n <= 0]. *)
Definition most_common (n : Z) (c : counter) : counter :=
  take (Z.to_nat n) (sorted_desc c).

(** [[word for word, count in word_counts.most_common(vocab_size)
      if count >= min_occurrances]] *)
Definition select_words (vocab_size min_occurrances : Z) (word_counts : counter)
  : list token :=
  (filter (fun p => min_occurrances <= Z.of_nat p.2)
          (most_common vocab_size word_counts)).*1.

(** [{word: i for i, word in enumerate(words)}]: a later duplicate would
    overwrite an earlier one. *)
Definition index_words (words : list token) : gmap token nat :=
  foldl (fun d '(i, word) => <[word := i]> d) ∅ (Py.enumerate words).

(** [x] is ranked before [y] among the entries of the counter [c]: a larger
    count, or the same count and an earlier place in [c]. *)
Definition ranks_before (c : counter) (x y : token * nat) : Prop :=
  (y.2 < x.2)%nat
  \/ (x.2 = y.2
      /\ exists i j : nat, (i < j)%nat /\ c !! i = Some x /\ c !! j = Some y).

(** ** Matrix assembly *)

(** The keys that [fit] looks up in [word_to_id]: a token, or a pair of
    tokens. *)
Inductive dict_key : Type :=
| WordKey (w : token)
| PairKey (p : token * token).

(** [word_to_id[k]]. The keys of [word_to_id] are tokens (strings); a tuple
    never equals a string, so a pair is never found. *)
Definition getitem (word_to_id : gmap token nat) (k : dict_key)
  : Py.result nat :=
  match k with
  | WordKey w =>
      match word_to_id !! w with
      | Some i => Py.Ok i
      | None => Py.Raise Py.KeyError
      end
  | PairKey _ => Py.Raise Py.KeyError
  end.

(** [k in word_to_id] for a token [k]. *)
Definition contains (word_to_id : gmap token nat) (w : token) : bool :=
  bool_decide (is_Some (word_to_id !! w)).

(** The filter of the comprehension on one item:
    [words[0] in word_to_id and words[1] in word_to_id]. *)
Definition kept (word_to_id : gmap token nat) (item : (token * token) * Qc)
  : bool :=
  contains word_to_id item.1.1 && contains word_to_id item.1.2.

(** One step of the dict comprehension of [fit]:
    [(word_to_id[words[0]], word_to_id[words]): count
     ... if words[0] in word_to_id and words[1] in word_to_id] *)
Definition matrix_item (word_to_id : gmap token nat)
    (m : gmap (nat * nat) Qc) (item : (token * token) * Qc)
  : Py.result (gmap (nat * nat) Qc) :=
  let '(words, count) := item in
  if kept word_to_id (words, count) then
    i ← getitem word_to_id (WordKey words.1);
    j ← getitem word_to_id (PairKey words);
    mret (<[(i, j) := count]> m)
  else mret m.

(** The dict comprehension over [cooccurence_counts.items()]. Python walks
    the items in insertion order and [map_to_list] in an order of its own;
    the outcome depends on the entries only, not on their order. *)
Definition build_matrix (word_to_id : gmap token nat) (d : cooccurrences)
  : Py.result (gmap (nat * nat) Qc) :=
  foldl (fun acc item => acc ≫= fun m => matrix_item word_to_id m item)
        (Py.Ok ∅) (map_to_list d).

(** ** The model object *)

(** The attributes of a [GloVe] instance. The embedding tables and bias
    vectors are owned by the tensor library; they appear here as the values
    they hold. [words] and [word_to_id] do not exist before [fit] sets
    them. *)
Record GloVe : Type := {
  embedding_size : Z;
  left_context : Z;
  right_context : Z;
  vocab_size : Z;
  min_occurrances : Z;
  alpha : R;
  x_max : R;
  focal_embeddings : list (list R);
  context_embeddings : list (list R);
  focal_biases : list R;
  context_biases : list R;
  coocurrence_matrix : option (gmap (nat * nat) Qc);
  words : option (list token);
  word_to_id : option (gmap token nat)
}.

Definition set_vocabulary (self : GloVe) (ws : list token)
    (ids : gmap token nat) : GloVe :=
  {| embedding_size := embedding_size self;
     left_context := left_context self;
     right_context := right_context self;
     vocab_size := vocab_size self;
     min_occurrances := min_occurrances self;
     alpha := alpha self;
     x_max := x_max self;
     focal_embeddings := focal_embeddings self;
     context_embeddings := context_embeddings self;
     focal_biases := focal_biases self;
     context_biases := context_biases self;
     coocurrence_matrix := coocurrence_matrix self;
     words := Some ws;
     word_to_id := Some ids |}.

Definition set_coocurrence_matrix (self : GloVe) (m : gmap (nat * nat) Qc)
  : GloVe :=
  {| embedding_size := embedding_size self;
     left_context := left_context self;
     right_context := right_context self;
     vocab_size := vocab_size self;
     min_occurrances := min_occurrances self;
     alpha := alpha self;
     x_max := x_max self;
     focal_embeddings := focal_embeddings self;
     context_embeddings := context_embeddings self;
     focal_biases := focal_biases self;
     context_biases := context_biases self;
     coocurrence_matrix := Some m;
     words := words self;
     word_to_id := word_to_id self |}.

(** ** Construction *)

(** The values [context_size] may be given as. [PyInt] stands for every
    instance of [int]. *)
#[warnings="-register-all"]
Inductive pyval : Type :=
| PyInt (z : Z)
| PyFloat (x : R)
| PyStr (s : string)
| PyNone
| PyTuple (items : list pyval)
| PyList (items : list pyval).

Definition context_size_message : string :=
  "'context_size' should be an int or a tuple of two ints".

(** [a, b = items] *)
Definition unpack_pair (items : list pyval) : Py.result (pyval * pyval) :=
  match items with
  | [a; b] => Py.Ok (a, b)
  | [] | [_] => Py.Raise (Py.ValueError "not enough values to unpack")
  | _ => Py.Raise (Py.ValueError "too many values to unpack")
  end.

(** Lines 13-19 of [__init__]: the two [if] statements on [context_size],
    one after the other. The first stores the pair it unpacked in the two
    attributes; the second decides alone whether construction goes on, and
    when it raises the object and the attributes set so far are lost. *)
Definition init_context (context_size : pyval) : Py.result (Z * Z) :=
  attrs ← match context_size with
           | PyTuple items => p ← unpack_pair items; mret (Some p)
           | _ => mret None
           end;
  match context_size with
  | PyInt z => mret (z, z)
  | _ => Py.Raise (Py.ValueError context_size_message)
  end.

(** The tables the tensor library creates and fills at construction. *)
Record parameters : Type := {
  init_focal_embeddings : list (list R);
  init_context_embeddings : list (list R);
  init_focal_biases : list R;
  init_context_biases : list R
}.

(** [GloVe.__init__]; the parameter tables are taken as given. *)
Definition __init__ (embedding_size : Z) (context_size : pyval)
    (vocab_size min_occurrances : Z) (x_max alpha : R) (p : parameters)
  : Py.result GloVe :=
  ctx ← init_context context_size;
  mret {| embedding_size := embedding_size;
          left_context := ctx.1;
          right_context := ctx.2;
          vocab_size := vocab_size;
          min_occurrances := min_occurrances;
          alpha := alpha;
          x_max := x_max;
          focal_embeddings := init_focal_embeddings p;
          context_embeddings := init_context_embeddings p;
          focal_biases := init_focal_biases p;
          context_biases := init_context_biases p;
          coocurrence_matrix := None;
          words := None;
          word_to_id := None |}.

(** Default arguments of [__init__]. *)
Definition default_vocab_size : Z := 100000.
Definition default_min_occurrances : Z := 1.
Definition default_x_max : R := 100.
Definition default_alpha : R := 3 / 4.

(** ** fit *)

Definition empty_corpus_message : string :=
  "No coccurrences in corpus, Did you try to reuse a generator?".

(** [GloVe.fit(corpus)]: the object as the call leaves it, and the exception
    raised, if any. *)
Definition fit (self : GloVe) (corpus : list region) : GloVe * option Py.exn :=
  let left_size := left_context self in
  let right_size := right_context self in
  let '(word_counts, cooccurence_counts) :=
    scan_corpus left_size right_size corpus in
  if decide (size cooccurence_counts = 0%nat) then
    (self, Some (Py.ValueError empty_corpus_message))
  else
    let ws := select_words (vocab_size self) (min_occurrances self) word_counts in
    let ids := index_words ws in
    let self := set_vocabulary self ws ids in
    match build_matrix ids cooccurence_counts with
    | Py.Ok m => (set_coocurrence_matrix self m, None)
    | Py.Raise e => (self, Some e)
    end.

(** A corpus given as a single-use iterable (a generator): what it has yet
    to yield. *)
Record generator : Type := { pending : list region }.

(** [fit] on a generator: the loop drains it. *)
Definition fit_generator (self : GloVe) (g : generator)
  : GloVe * option Py.exn * generator :=
  (fit self (pending g), {| pending := [] |}).

(** ** forward *)

Open Scope R_scope.

(** Indexing a table by a batch of ids ([nn.Embedding.__call__], and
    [tensor[ids]] for the biases): an id past the end raises. *)
Fixpoint lookup_batch {A : Type} (table : list A) (ids : list nat)
  : Py.result (list A) :=
  match ids with
  | [] => Py.Ok []
  | i :: ids' =>
      match table !! i with
      | Some x => xs ← lookup_batch table ids'; mret (x :: xs)
      | None => Py.Raise Py.IndexError
      end
  end.

(** An element-wise binary operation on two one-dimensional batches, with
    the tensor library's broadcasting: equal lengths, or one side of
    length 1. *)
Definition broadcast {A B C : Type} (f : A -> B -> C)
    (xs : list A) (ys : list B) : Py.result (list C) :=
  if decide (length xs = length ys) then Py.Ok (zip_with f xs ys)
  else match xs, ys with
       | [x], _ => Py.Ok (f x <$> ys)
       | _, [y] => Py.Ok ((fun x => f x y) <$> xs)
       | _, _ => Py.Raise Py.RuntimeError
       end.

(** [torch.sum] of a vector. *)
Definition sum_list (xs : list R) : R := foldr Rplus 0 xs.

(** [torch.sum(a * b)] along one row. *)
Definition row_dot (a b : list R) : R := sum_list (zip_with Rmult a b).

(** [weight_factor[weight_factor > 1] = 1] on one entry. *)
Definition clamp_one (w : R) : R := if Rlt_dec 1 w then 1 else w.

(** [torch.pow(coocurrence_count / x_max, alpha)] followed by the clamp, on
    one entry. [Rpower] is the power for a positive base only: this is the
    code's value when [x_max] and the count are positive. *)
Definition weight_factor (self : GloVe) (count : R) : R :=
  clamp_one (Rpower (count / x_max self) (alpha self)).

(** [GloVe.forward(focal_input, context_input, coocurrence_count)] on
    one-dimensional batches. Real arithmetic stands for the floating-point
    operations, which it matches up to rounding where they are defined on
    reals (positive arguments of [log] and [pow]). *)
Definition forward (self : GloVe) (focal_input context_input : list nat)
    (coocurrence_count : list R) : Py.result R :=
  focal_embed ← lookup_batch (focal_embeddings self) focal_input;
  context_embed ← lookup_batch (context_embeddings self) context_input;
  focal_bias ← lookup_batch (focal_biases self) focal_input;
  context_bias ← lookup_batch (context_biases self) context_input;
  let weight_factor := weight_factor self <$> coocurrence_count in
  embedding_products ← broadcast row_dot focal_embed context_embed;
  let log_cooccurrences := ln <$> coocurrence_count in
  s1 ← broadcast Rplus embedding_products focal_bias;
  s2 ← broadcast Rplus s1 context_bias;
  s3 ← broadcast Rplus s2 log_cooccurrences;
  let distance_expr := (fun x => x ^ 2) <$> s3 in
  single_losses ← broadcast Rmult weight_factor distance_expr;
  let total_loss := sum_list single_losses in
  mret total_loss.

(** The loss of one pair as the specification words it:
    [min(1, (count / x_max) ^ alpha) *
     (dot(focal, context) + focal_bias + context_bias + log count) ^ 2]. *)
Definition pair_loss (self : GloVe) (focal context : list R)
    (focal_bias context_bias count : R) : R :=
  Rmin 1 (Rpower (count / x_max self) (alpha self))
  * (row_dot focal context + focal_bias + context_bias + ln count) ^ 2.

(** The sum of [pair_loss] over a batch of ids and counts, each id read in
    the tables of [self]. *)
Fixpoint batch_loss (self : GloVe) (focal_input context_input : list nat)
    (coocurrence_count : list R) : R :=
  match focal_input, context_input, coocurrence_count with
  | f :: fs, c :: cs, x :: xs =>
      pair_loss self
        (default [] (focal_embeddings self !! f))
        (default [] (context_embeddings self !! c))
        (default 0 (focal_biases self !! f))
        (default 0 (context_biases self !! c)) x
      + batch_loss self fs cs xs
  | _, _, _ => 0
  end.

Close Scope R_scope.

(** ** A small model for worked examples *)

(** A model as [GloVe(2, context_size, vocab_size, min_occurrances)] builds
    it, with three rows in each table. *)
Definition toy_model (context_size vocab_size min_occurrances : Z) : GloVe :=
  {| embedding_size := 2;
     left_context := context_size;
     right_context := context_size;
     vocab_size := vocab_size;
     min_occurrances := min_occurrances;
     alpha := default_alpha;
     x_max := default_x_max;
     focal_embeddings := [[1; 0]; [0; 1]; [1; 1]]%R;
     context_embeddings := [[0; 1]; [1; 0]; [1; 1]]%R;
     focal_biases := [0; 0; 0]%R;
     context_biases := [0; 0; 0]%R;
     coocurrence_matrix := None;
     words := None;
     word_to_id := None |}.

(** The same object with other weighting constants. *)
Definition with_weighting (self : GloVe) (x_max alpha : R) : GloVe :=
  {| embedding_size := embedding_size self;
     left_context := left_context self;
     right_context := right_context self;
     vocab_size := vocab_size self;
     min_occurrances := min_occurrances self;
     alpha := alpha;
     x_max := x_max;
     focal_embeddings := focal_embeddings self;
     context_embeddings := context_embeddings self;
     focal_biases := focal_biases self;
     context_biases := context_biases self;
     coocurrence_matrix := coocurrence_matrix self;
     words := words self;
     word_to_id := word_to_id self |}.

(** The ids of a batch are rows of the tables of [self]. *)
Definition focal_in_range (self : GloVe) (ids : list nat) : Prop :=
  Forall (fun i => (i < length (focal_embeddings self))%nat
                   /\ (i < length (focal_biases self))%nat) ids.

Definition context_in_range (self : GloVe) (ids : list nat) : Prop :=
  Forall (fun i => (i < length (context_embeddings self))%nat
                   /\ (i < length (context_biases self))%nat) ids.

(** ** The scan in binary64 arithmetic *)

(** The same scan with the weights as the code holds them: Python floats,
    that is IEEE 754 binary64 numbers, added with rounding. Only the
    arithmetic differs from the definitions above. *)

(** [1 / (i + 1)]: the correctly rounded quotient of two integers (the
    index of a context word is far below [2^53], so its conversion is
    exact). *)
Definition inv_distance_float (i : nat) : float :=
  PrimFloat.div 1%float (PrimFloat.of_uint63 (Uint63.of_Z (Z.of_nat (S i)))).

(** [d[key] += w] on a [defaultdict(float)]: a missing key reads as [0.0]. *)
Definition add_weight_float (d : gmap (token * token) float)
    (key : token * token) (w : float) : gmap (token * token) float :=
  <[key := PrimFloat.add (default 0%float (d !! key)) w]> d.

Definition add_context_float (word : token) (d : gmap (token * token) float)
    (context : region) : gmap (token * token) float :=
  foldl (fun d '(i, context_word) =>
           add_weight_float d (word, context_word) (inv_distance_float i))
        d (Py.enumerate context).

Definition scan_window_float (d : gmap (token * token) float)
    (w : region * token * region) : gmap (token * token) float :=
  let '(left_context, word, right_context) := w in
  let d := add_context_float word d (reverse left_context) in
  add_context_float word d right_context.

Definition scan_region_float (left_size right_size : Z)
    (acc : counter * gmap (token * token) float) (r : region)
  : counter * gmap (token * token) float :=
  let word_counts := counter_update acc.1 r in
  let cooccurence_counts :=
    foldl scan_window_float acc.2 (_context_windows r left_size right_size) in
  (word_counts, cooccurence_counts).

Definition scan_from_float (left_size right_size : Z)
    (acc : counter * gmap (token * token) float) (corpus : list region)
  : counter * gmap (token * token) float :=
  foldl (scan_region_float left_size right_size) acc corpus.

Definition scan_corpus_float (left_size right_size : Z)
    (corpus : list region) : counter * gmap (token * token) float :=
  scan_from_float left_size right_size ([], ∅) corpus.

(** Key-by-key sum of two maps of floats (a missing key counts as 0). *)
Definition merge_float (d1 d2 : gmap (token * token) float)
  : gmap (token * token) float :=
  union_with (fun a b => Some (PrimFloat.add a b)) d1 d2.

(** ** Notions used to state further properties *)

(** The number of times [w] stands in a list of tokens. *)
Definition occurrences (w : token) (l : list token) : nat :=
  length (filter (fun t => t = w) l).

(** The distinct tokens of a list, in order of first occurrence. *)
Definition first_occurrences (l : list token) : list token :=
  reverse (remove_dups (reverse l)).

(** [b] stands in a context of the focal word [a] somewhere in the corpus. *)
Definition co_occur (L R : Z) (corpus : list region) (a b : token) : Prop :=
  exists (r : region) (i : nat) (left_context right_context : region),
    r ∈ corpus
    /\ _context_windows r L R !! i = Some (left_context, a, right_context)
    /\ b ∈ left_context ++ right_context.

(** Every weight stored in the map is strictly positive. *)
Definition all_positive (d : gmap (token * token) Qc) : Prop :=
  forall key w, d !! key = Some w -> (0 < w)%Qc.

(** Some entry of the map has both its words in the list [ws]. *)
Definition has_kept_entry (ws : list token) (d : gmap (token * token) Qc)
  : Prop :=
  exists (a b : token) (count : Qc),
    d !! (a, b) = Some count /\ a ∈ ws /\ b ∈ ws.

(** Two batch lengths can be broadcast against each other. *)
Definition compatible (n m : nat) : Prop := n = m \/ n = 1%nat \/ m = 1%nat.

(** The length of the result of broadcasting lengths [n] and [m]. *)
Definition broadcast_length (n m : nat) : nat :=
  if decide (n = 1%nat) then m else n.

(** The length of a broadcast result, if the two lengths are compatible. *)
Definition broadcast_lengths (n m : nat) : option nat :=
  if decide (compatible n m) then Some (broadcast_length n m) else None.

(** The lengths through the element-wise operations of [forward], for
    batches of lengths [n] (focal ids), [m] (context ids) and [k]
    (counts). *)
Definition forward_lengths (n m k : nat) : option nat :=
  p ← broadcast_lengths n m;
  s1 ← broadcast_lengths p n;
  s2 ← broadcast_lengths s1 m;
  s3 ← broadcast_lengths s2 k;
  broadcast_lengths k s3.

(** The sum of [f i x] over the positions [i] and elements [x] of a list. *)
Definition sum_imap (f : nat -> token -> Qc) (l : list token) : Qc :=
  foldr Qcplus 0%Qc (imap f l).

(** What scanning one triple adds to the weight of [(a, b)]. *)
Definition window_weight (a b : token) (w : region * token * region) : Qc :=
  if decide (a = w.1.2)
  then (context_weight (reverse w.1.1) b + context_weight w.2 b)%Qc
  else 0%Qc.

(** What scanning a list of triples adds to the weight of [(a, b)]. *)
Definition windows_weight (ws : list (region * token * region)) (a b : token)
  : Qc :=
  foldr (fun w acc => (window_weight a b w + acc)%Qc) 0%Qc ws.

(** What scanning a corpus adds to the weight of [(a, b)]. *)
Definition corpus_weight (L R : Z) (corpus : list region) (a b : token) : Qc :=
  foldr (fun r acc => (windows_weight (_context_windows r L R) a b + acc)%Qc)
        0%Qc corpus.

(** Parameter tables with two rows, for worked examples. *)
Definition example_parameters : parameters :=
  {| init_focal_embeddings := [[1; 0]; [0; 1]]%R;
     init_context_embeddings := [[0; 1]; [1; 0]]%R;
     init_focal_biases := [0; 0]%R;
     init_context_biases := [0; 0]%R |}.

(** * Properties *)

(** ** Slices and windows *)

Section Windows.

Context {A : Type}.
Implicit Types l : list A.

Lemma take_drop_lookups l (a k : nat) :
  (a + k <= length l)%nat ->
  Some <$> take k (drop a l) = (fun j => l !! (a + j)%nat) <$> seq 0 k.
Proof.
  intros Hlen. apply list_eq. intros j.
  rewrite !list_lookup_fmap.
  destruct (decide (j < k)%nat) as [Hj|Hj].
  - rewrite lookup_take_lt by done. rewrite lookup_drop.
    rewrite lookup_seq_lt by done. simpl.
    destruct (lookup_lt_is_Some_2 l (a + j)%nat) as [x ->]; [lia|done].
  - rewrite lookup_take_ge by lia. rewrite lookup_seq_ge by lia. done.
Qed.

(** A slice with both bounds non-negative. *)
Lemma slice_nonneg l (s e : Z) :
  0 <= s -> 0 <= e ->
  Py.slice l s e =
    take (Z.to_nat (Z.min e (Z.of_nat (length l)) - Z.min s (Z.of_nat (length l))))
         (drop (Z.to_nat (Z.min s (Z.of_nat (length l)))) l).
Proof.
  intros Hs He. unfold Py.slice, Py.slice_bound.
  destruct (Z.ltb_spec s 0); [lia|]. destruct (Z.ltb_spec e 0); [lia|]. done.
Qed.

End Windows.

Lemma window_left (r : region) (L : Z) (i : nat) :
  (i < length r)%nat ->
  Some <$> _window r (Z.of_nat i - L) (Z.of_nat i - 1) =
    tokens_between r (Z.max (Z.of_nat i - L) 0) (Z.of_nat i - 1).
Proof.
  intros Hi. unfold _window, tokens_between.
  rewrite slice_nonneg by lia.
  destruct (decide (0 <= L)) as [HL|HL].
  - rewrite take_drop_lookups by lia.
    f_equal; [|f_equal; lia].
    replace (Z.to_nat (Z.min (Z.max (Z.of_nat i - L) 0) (Z.of_nat (length r))))
      with (Z.to_nat (Z.max (Z.of_nat i - L) 0)) by lia. done.
  - (* a negative size: the slice and the index range are both empty *)
    replace (Z.to_nat (Z.of_nat i - 1 + 1 - Z.max (Z.of_nat i - L) 0))
      with 0%nat by lia.
    match goal with |- context [take ?k _] => replace k with 0%nat by lia end.
    done.
Qed.

Lemma window_right (r : region) (R : Z) (i : nat) :
  0 <= R -> (i < length r)%nat ->
  Some <$> _window r (Z.of_nat i + 1) (Z.of_nat i + R) =
    tokens_between r (Z.of_nat i + 1)
      (Z.min (Z.of_nat i + R) (Z.of_nat (length r) - 1)).
Proof.
  intros HR Hi. unfold _window, tokens_between.
  rewrite slice_nonneg by lia.
  rewrite take_drop_lookups.
  - f_equal; [|f_equal; lia].
    replace (Z.to_nat (Z.min (Z.max (Z.of_nat i + 1) 0) (Z.of_nat (length r))))
      with (Z.to_nat (Z.of_nat i + 1)) by lia. done.
  - lia.
Qed.

Lemma length_context_windows (r : region) (L R : Z) :
  length (_context_windows r L R) = length r.
Proof. unfold _context_windows. by rewrite length_imap. Qed.

Lemma lookup_context_windows (r : region) (L R : Z) (i : nat) (word : token) :
  r !! i = Some word ->
  _context_windows r L R !! i =
    Some (_window r (Z.of_nat i - L) (Z.of_nat i - 1), word,
          _window r (Z.of_nat i + 1) (Z.of_nat i + R)).
Proof.
  intros Hw. unfold _context_windows. rewrite list_lookup_imap, Hw. done.
Qed.

Open Scope string_scope.

(** A negative right size is not a window size: the stop index of the slice
    turns negative and counts from the end of the region. *)
Example window_negative_right_size :
  _context_windows ["a"; "b"; "c"; "d"; "e"] 1 (-3) !! 0%nat
  = Some ([], "a", ["b"; "c"]).
Proof. reflexivity. Qed.

(** C5. At every position [i] of a region of length [n], for window sizes
    [L] and [R >= 0], the extractor yields the triple made of the tokens at
    indices [max(i-L,0) .. i-1], the token at [i], and the tokens at indices
    [i+1 .. min(i+R, n-1)], each in the region's order; every element of a
    context is a token of the region (nothing is padded), one triple is
    yielded per position, and on [a b c] with [L = R = 1] the position of [b]
    yields [a] and [c], the position of [a] yields nothing and [b]. *)
Theorem context_windows_spec :
  (forall (r : region) (L R : Z) (i : nat),
      0 <= R -> (i < length r)%nat ->
      exists left_context word right_context,
        _context_windows r L R !! i = Some (left_context, word, right_context)
        /\ r !! i = Some word
        /\ Some <$> left_context =
             tokens_between r (Z.max (Z.of_nat i - L) 0) (Z.of_nat i - 1)
        /\ Some <$> right_context =
             tokens_between r (Z.of_nat i + 1)
               (Z.min (Z.of_nat i + R) (Z.of_nat (length r) - 1)))
  /\ (forall (r : region) (L R : Z),
         length (_context_windows r L R) = length r)
  /\ _context_windows ["a"; "b"; "c"] 1 1 !! 1%nat = Some (["a"], "b", ["c"])
  /\ _context_windows ["a"; "b"; "c"] 1 1 !! 0%nat = Some ([], "a", ["b"]).
Proof.
  split; [|split; [apply length_context_windows|split; reflexivity]].
  intros r L R i HR Hi.
  destruct (lookup_lt_is_Some_2 r i Hi) as [word Hw].
  eexists _, word, _. split; [by apply lookup_context_windows|].
  split; [done|]. split; [by apply window_left|by apply window_right].
Qed.

Lemma context_windows_spec_witness :
  exists left_context word right_context,
    _context_windows ["x"; "y"; "z"; "w"] 2 1 !! 2%nat
      = Some (left_context, word, right_context)
    /\ ["x"; "y"; "z"; "w"] !! 2%nat = Some word
    /\ Some <$> left_context =
         tokens_between ["x"; "y"; "z"; "w"] (Z.max (Z.of_nat 2 - 2) 0) (Z.of_nat 2 - 1)
    /\ Some <$> right_context =
         tokens_between ["x"; "y"; "z"; "w"] (Z.of_nat 2 + 1)
           (Z.min (Z.of_nat 2 + 1) (Z.of_nat (length ["x"; "y"; "z"; "w"]) - 1)).
Proof.
  apply (proj1 context_windows_spec ["x"; "y"; "z"; "w"] 2 1 2%nat);
    [lia | simpl; lia].
Defined.
Close Scope string_scope.

(** ** Distance weights *)

Lemma weight_at_add_weight d key w key' :
  weight_at (add_weight d key w) key' =
    (weight_at d key' + (if decide (key = key') then w else 0))%Qc.
Proof.
  unfold weight_at, add_weight. rewrite lookup_insert.
  destruct (decide (key = key')) as [->|Hne]; simpl; [done|ring].
Qed.

(** The loop over a context, with the positions read through [g]. *)
Lemma weight_at_add_context_gen (g : nat -> nat) (word : token) (context : region) d (a b : token) :
  weight_at
    (foldl (fun d '(i, context_word) =>
              add_weight d (word, context_word) (inv_distance i))
       d (imap (fun i x => (g i, x)) context)) (a, b) =
  (weight_at d (a, b) +
   (if decide (a = word) then
      foldr (fun '(k, c) acc =>
               ((if decide (c = b) then inv_distance k else 0) + acc)%Qc)
        0%Qc (imap (fun i x => (g i, x)) context)
    else 0))%Qc.
Proof.
  revert g d. induction context as [|c context IH]; intros g d; simpl.
  - destruct (decide (a = word)); ring.
  - rewrite (IH (g ∘ S)). rewrite weight_at_add_weight.
    destruct (decide (a = word)) as [->|Ha].
    + destruct (decide (c = b)) as [->|Hc].
      * rewrite decide_True by done. unfold compose. ring.
      * rewrite decide_False by congruence. unfold compose. ring.
    + rewrite decide_False by congruence. ring.
Qed.

Lemma weight_at_add_context word context d a b :
  weight_at (add_context word d context) (a, b) =
    (weight_at d (a, b) +
     (if decide (a = word) then context_weight context b else 0))%Qc.
Proof. apply (weight_at_add_context_gen (fun i => i)). Qed.

Lemma weight_at_scan_window d left_context word right_context a b :
  weight_at (scan_window d (left_context, word, right_context)) (a, b) =
    (weight_at d (a, b) +
     (if decide (a = word) then
        context_weight (reverse left_context) b + context_weight right_context b
      else 0))%Qc.
Proof.
  unfold scan_window. rewrite !weight_at_add_context.
  destruct (decide (a = word)); ring.
Qed.

Lemma context_weight_absent_gen (g : nat -> nat) (context : region) (b : token) :
  (forall j, context !! j <> Some b) ->
  foldr (fun '(k, c) acc =>
           ((if decide (c = b) then inv_distance k else 0) + acc)%Qc)
    0%Qc (imap (fun i x => (g i, x)) context) = 0%Qc.
Proof.
  revert g. induction context as [|c context IH]; intros g Hno; [done|].
  simpl. rewrite decide_False by (intros ->; by apply (Hno 0%nat)).
  rewrite Qcplus_0_l. apply (IH (g ∘ S)). intros j. apply (Hno (S j)).
Qed.

(** A context with a single occurrence of [b], at position [k], adds
    exactly [1/(k+1)]. *)
Lemma context_weight_single_gen (g : nat -> nat) (context : region) (b : token) k :
  context !! k = Some b ->
  (forall j, j <> k -> context !! j <> Some b) ->
  foldr (fun '(k, c) acc =>
           ((if decide (c = b) then inv_distance k else 0) + acc)%Qc)
    0%Qc (imap (fun i x => (g i, x)) context) = inv_distance (g k).
Proof.
  revert g k. induction context as [|c context IH]; intros g k Hk Huniq;
    [done|].
  simpl. destruct k as [|k]; simpl in Hk.
  - injection Hk as ->. rewrite decide_True by done.
    etrans; [|apply Qcplus_0_r]. f_equal.
    apply (context_weight_absent_gen (g ∘ S)).
    intros j. apply (Huniq (S j)). lia.
  - rewrite decide_False by (intros ->; by apply (Huniq 0%nat)).
    rewrite Qcplus_0_l. apply (IH (g ∘ S) k Hk).
    intros j Hj. apply (Huniq (S j)). lia.
Qed.

Lemma context_weight_single context b k :
  context !! k = Some b ->
  (forall j, j <> k -> context !! j <> Some b) ->
  context_weight context b = inv_distance k.
Proof. apply (context_weight_single_gen (fun i => i)). Qed.

Open Scope string_scope.

(** C6. Scanning one triple adds to the weight of [(focal, b)], for every
    context token [b], [1/(k+1)] for each position [k] at which [b] stands
    in the left context read from the focal word outwards (reversed), and
    [1/(k+1)] for each position [k] at which it stands in the right context
    read in its own order; the weights of pairs with another first word do
    not change. A token standing once in a context, at position [k], adds
    [1/(k+1)]. On [x y z] with [left = 0], [right = 2] the pair [(x, y)]
    weighs 1 and [(x, z)] weighs 1/2. *)
Theorem scan_window_weights :
  (forall d left_context word right_context a b,
      weight_at (scan_window d (left_context, word, right_context)) (a, b) =
        (weight_at d (a, b) +
         (if decide (a = word) then
            context_weight (reverse left_context) b
            + context_weight right_context b
          else 0))%Qc)
  /\ (forall context b k,
         context !! k = Some b ->
         (forall j, j <> k -> context !! j <> Some b) ->
         context_weight context b = (1 / Q2Qc (inject_Z (Z.of_nat k + 1)))%Qc)
  /\ (scan_corpus 0 2 [["x"; "y"; "z"]]).2 !! ("x", "y") = Some 1%Qc
  /\ (scan_corpus 0 2 [["x"; "y"; "z"]]).2 !! ("x", "z") = Some (Q2Qc (1 # 2)).
Proof.
  split; [apply weight_at_scan_window|].
  split; [|split; vm_compute; reflexivity].
  intros context b k Hk Huniq.
  rewrite (context_weight_single context b k Hk Huniq).
  unfold inv_distance. apply Qc_is_canon. simpl.
  rewrite !Qred_correct. unfold Qeq, Qdiv, Qinv, Qmult. simpl.
  destruct k; simpl; lia.
Qed.
Close Scope string_scope.

Lemma scan_window_weights_witness :
  context_weight ["y"; "z"]%string "z"%string
    = (1 / Q2Qc (inject_Z (Z.of_nat 1 + 1)))%Qc.
Proof.
  apply (proj1 (proj2 scan_window_weights) ["y"; "z"]%string "z"%string 1%nat).
  - reflexivity.
  - intros [|[|j]] Hj; simpl; [discriminate | lia | discriminate].
Defined.

(** ** Aggregation and merging *)

Section Merge.

Implicit Types d : gmap (token * token) Qc.

Lemma merge_empty_r d : merge_cooccurrences d ∅ = d.
Proof. unfold merge_cooccurrences. apply (right_id _ _). Qed.

Lemma lookup_merge d1 d2 key :
  merge_cooccurrences d1 d2 !! key =
    union_with (fun a b => Some (a + b)%Qc) (d1 !! key) (d2 !! key).
Proof. unfold merge_cooccurrences. apply lookup_union_with. Qed.

(** [d[key] += w] on the second operand of a merge is the same update on
    the merged map. *)
Lemma add_weight_merge d1 d2 key w :
  add_weight (merge_cooccurrences d1 d2) key w =
    merge_cooccurrences d1 (add_weight d2 key w).
Proof.
  apply map_eq. intros key'. unfold add_weight.
  rewrite (lookup_merge d1 (<[key:=_]> d2)), !lookup_insert.
  destruct (decide (key = key')) as [->|Hne]; rewrite lookup_merge; [|done].
  destruct (d1 !! key') as [x|], (d2 !! key') as [y|]; simpl; f_equal; ring.
Qed.

(** A loop of updates that commute with merging commutes with merging. *)
Lemma merges_foldl {X : Type} (op : gmap (token * token) Qc -> X -> gmap (token * token) Qc) :
  merges op -> merges (foldl op).
Proof.
  intros Hop d1 d2 xs. revert d2.
  induction xs as [|x xs IH]; intros d2; simpl; [done|].
  by rewrite Hop, IH.
Qed.

Lemma merges_add_context word : merges (add_context word).
Proof.
  unfold add_context. intros d1 d2 context.
  generalize (Py.enumerate context). intros l. revert d2.
  induction l as [|[i c] l IH]; intros d2; simpl; [done|].
  by rewrite add_weight_merge, IH.
Qed.

Lemma merges_scan_window : merges scan_window.
Proof.
  intros d1 d2 [[left_context word] right_context]. unfold scan_window.
  by rewrite !merges_add_context.
Qed.

Lemma scan_region_snd L R wc d r :
  (scan_region L R (wc, d) r).2 = foldl scan_window d (_context_windows r L R).
Proof. done. Qed.

Lemma scan_region_fst L R wc d r :
  (scan_region L R (wc, d) r).1 = counter_update wc r.
Proof. done. Qed.

Lemma scan_from_snd_merge L R corpus wc1 wc2 d1 d2 :
  (scan_from L R (wc1, merge_cooccurrences d1 d2) corpus).2 =
    merge_cooccurrences d1 (scan_from L R (wc2, d2) corpus).2.
Proof.
  unfold scan_from. revert wc1 wc2 d2.
  induction corpus as [|r corpus IH]; intros wc1 wc2 d2; simpl; [done|].
  unfold scan_region at 2 4. simpl.
  rewrite (merges_foldl _ merges_scan_window). apply IH.
Qed.

(** Scanning from accumulators is scanning from scratch and merging. *)
Lemma scan_from_snd L R corpus wc d :
  (scan_from L R (wc, d) corpus).2 =
    merge_cooccurrences d (scan_corpus L R corpus).2.
Proof.
  unfold scan_corpus. rewrite <- (scan_from_snd_merge L R corpus wc []).
  by rewrite merge_empty_r.
Qed.

End Merge.

Section Counters.

Implicit Types c : list (token * nat).

Lemma counter_get_incr c w w' :
  counter_get (counter_incr c w) w' =
    (counter_get c w' + (if decide (w = w') then 1 else 0))%nat.
Proof.
  induction c as [|[k n] c IH]; simpl.
  - destruct (decide (w = w')); done.
  - destruct (decide (k = w)) as [->|Hk]; simpl.
    + destruct (decide (w = w')); lia.
    + rewrite IH. destruct (decide (k = w')) as [->|Hk'].
      * rewrite decide_False by congruence. lia.
      * done.
Qed.

(** The number of times [w] stands in a region. *)
Lemma counter_get_update c (r : region) w :
  counter_get (counter_update c r) w =
    (counter_get c w + length (filter (fun t => t = w) r))%nat.
Proof.
  unfold counter_update. revert c.
  induction r as [|t r IH]; intros c; simpl; [lia|].
  rewrite IH, counter_get_incr, filter_cons.
  destruct (decide (t = w)); simpl; lia.
Qed.

Lemma scan_from_fst_get L R corpus c d c' d' w :
  (counter_get (scan_from L R (c, d) corpus).1 w + counter_get c' w
   = counter_get (scan_from L R (c', d') corpus).1 w + counter_get c w)%nat.
Proof.
  unfold scan_from. revert c d c' d'.
  induction corpus as [|r corpus IH]; intros c d c' d'; simpl; [lia|].
  unfold scan_region at 2 4. simpl.
  specialize (IH (counter_update c r)
                (foldl scan_window d (_context_windows r L R))
                (counter_update c' r)
                (foldl scan_window d' (_context_windows r L R))).
  rewrite !counter_get_update in IH. lia.
Qed.

End Counters.

Lemma scan_corpus_app_cooccurrences (L R : Z) (corpus1 corpus2 : list region) :
  (scan_corpus L R (corpus1 ++ corpus2)).2 =
    merge_cooccurrences (scan_corpus L R corpus1).2 (scan_corpus L R corpus2).2.
Proof.
  unfold scan_corpus at 1 2. unfold scan_from. rewrite foldl_app.
  fold (scan_from L R ([], ∅) corpus1).
  destruct (scan_from L R ([], ∅) corpus1) as [wc1 d1].
  fold (scan_from L R (wc1, d1) corpus2). apply scan_from_snd.
Qed.

Lemma scan_corpus_app_counts (L R : Z) (corpus1 corpus2 : list region) (w : token) :
  counter_get (scan_corpus L R (corpus1 ++ corpus2)).1 w =
    (counter_get (scan_corpus L R corpus1).1 w
     + counter_get (scan_corpus L R corpus2).1 w)%nat.
Proof.
  unfold scan_corpus at 1 2. unfold scan_from. rewrite foldl_app.
  fold (scan_from L R ([], ∅) corpus1).
  destruct (scan_from L R ([], ∅) corpus1) as [wc1 d1].
  fold (scan_from L R (wc1, d1) corpus2). simpl.
  pose proof (scan_from_fst_get L R corpus2 wc1 d1 [] ∅ w) as H.
  simpl in H. fold (scan_corpus L R corpus2) in H. lia.
Qed.

Lemma merge_comm (d1 d2 : gmap (token * token) Qc) :
  merge_cooccurrences d1 d2 = merge_cooccurrences d2 d1.
Proof.
  apply map_eq. intros key. rewrite !lookup_merge.
  destruct (d1 !! key), (d2 !! key); simpl; f_equal; ring.
Qed.

Lemma merge_assoc (d1 d2 d3 : gmap (token * token) Qc) :
  merge_cooccurrences d1 (merge_cooccurrences d2 d3) =
    merge_cooccurrences (merge_cooccurrences d1 d2) d3.
Proof.
  apply map_eq. intros key. rewrite !lookup_merge.
  destruct (d1 !! key), (d2 !! key), (d3 !! key); simpl; f_equal; ring.
Qed.

Lemma scan_corpus_cons_cooccurrences (L R : Z) (r : region)
    (corpus : list region) :
  (scan_corpus L R (r :: corpus)).2 =
    merge_cooccurrences (scan_corpus L R [r]).2 (scan_corpus L R corpus).2.
Proof. apply (scan_corpus_app_cooccurrences L R [r] corpus). Qed.

Lemma scan_corpus_cons_counts (L R : Z) (r : region) (corpus : list region)
    (w : token) :
  counter_get (scan_corpus L R (r :: corpus)).1 w =
    (counter_get (scan_corpus L R [r]).1 w
     + counter_get (scan_corpus L R corpus).1 w)%nat.
Proof. apply (scan_corpus_app_counts L R [r] corpus). Qed.

(** The order of the regions does not matter to the co-occurrence map. *)
Lemma scan_corpus_perm_cooccurrences (L R : Z) (corpus corpus' : list region) :
  corpus ≡ₚ corpus' ->
  (scan_corpus L R corpus).2 = (scan_corpus L R corpus').2.
Proof.
  induction 1 as [|r c c' _ IH|r1 r2 c|c c' c'' _ IH1 _ IH2].
  - done.
  - by rewrite (scan_corpus_cons_cooccurrences L R r c),
      (scan_corpus_cons_cooccurrences L R r c'), IH.
  - rewrite (scan_corpus_cons_cooccurrences L R r2 (r1 :: c)),
      (scan_corpus_cons_cooccurrences L R r1 c),
      (scan_corpus_cons_cooccurrences L R r1 (r2 :: c)),
      (scan_corpus_cons_cooccurrences L R r2 c).
    rewrite !merge_assoc. f_equal. apply merge_comm.
  - by rewrite IH1.
Qed.

(** Nor to the count of any word (it does matter to the order of the keys
    of the counter). *)
Lemma scan_corpus_perm_counts (L R : Z) (corpus corpus' : list region)
    (w : token) :
  corpus ≡ₚ corpus' ->
  counter_get (scan_corpus L R corpus).1 w
  = counter_get (scan_corpus L R corpus').1 w.
Proof.
  induction 1 as [|r c c' _ IH|r1 r2 c|c c' c'' _ IH1 _ IH2].
  - done.
  - by rewrite (scan_corpus_cons_counts L R r c),
      (scan_corpus_cons_counts L R r c'), IH.
  - rewrite (scan_corpus_cons_counts L R r2 (r1 :: c)),
      (scan_corpus_cons_counts L R r1 c),
      (scan_corpus_cons_counts L R r1 (r2 :: c)),
      (scan_corpus_cons_counts L R r2 c). lia.
  - by rewrite IH1.
Qed.

(** *** The same scan in binary64 *)

Section FloatKeys.

Implicit Types (df : gmap (token * token) float) (dq : gmap (token * token) Qc).

Lemma add_pairs_float_dom (word : token) (l : list (nat * token)) df dq :
  dom df = dom dq ->
  dom (foldl (fun d '(i, context_word) =>
                add_weight_float d (word, context_word) (inv_distance_float i))
         df l)
  = dom (foldl (fun d '(i, context_word) =>
                  add_weight d (word, context_word) (inv_distance i))
           dq l).
Proof.
  revert df dq. induction l as [|[i c] l IH]; intros df dq Hd; simpl; [done|].
  apply IH. unfold add_weight_float, add_weight.
  by rewrite !dom_insert_L, Hd.
Qed.

Lemma scan_window_float_dom df dq (w : region * token * region) :
  dom df = dom dq -> dom (scan_window_float df w) = dom (scan_window dq w).
Proof.
  destruct w as [[l word] rt]. intros Hd.
  unfold scan_window_float, scan_window, add_context_float, add_context.
  by do 2 apply add_pairs_float_dom.
Qed.

Lemma scan_windows_float_dom df dq (ws : list (region * token * region)) :
  dom df = dom dq ->
  dom (foldl scan_window_float df ws) = dom (foldl scan_window dq ws).
Proof.
  revert df dq. induction ws as [|w ws IH]; intros df dq Hd; simpl; [done|].
  by apply IH, scan_window_float_dom.
Qed.

Lemma scan_from_float_spec L R corpus (wc : list (token * nat)) df dq :
  dom df = dom dq ->
  (scan_from_float L R (wc, df) corpus).1 = (scan_from L R (wc, dq) corpus).1
  /\ dom (scan_from_float L R (wc, df) corpus).2
     = dom (scan_from L R (wc, dq) corpus).2.
Proof.
  unfold scan_from_float, scan_from. revert wc df dq.
  induction corpus as [|r corpus IH]; intros wc df dq Hd; simpl; [done|].
  unfold scan_region_float at 2 4, scan_region at 2 4. simpl.
  by apply IH, scan_windows_float_dom.
Qed.

(** The binary64 scan has the word counts and the keys of the exact one. *)
Lemma scan_corpus_float_spec L R corpus :
  (scan_corpus_float L R corpus).1 = (scan_corpus L R corpus).1
  /\ dom (scan_corpus_float L R corpus).2 = dom (scan_corpus L R corpus).2.
Proof.
  apply scan_from_float_spec. by rewrite !dom_empty_L.
Qed.

Lemma dom_merge_float df1 df2 :
  dom (merge_float df1 df2) = dom df1 ∪ dom df2.
Proof.
  apply set_eq. intros key.
  rewrite elem_of_union, !elem_of_dom. unfold merge_float.
  rewrite lookup_union_with.
  destruct (df1 !! key), (df2 !! key); simpl; split; eauto;
    intros [[? ?]|[? ?]]; done.
Qed.

Lemma dom_merge_cooccurrences dq1 dq2 :
  dom (merge_cooccurrences dq1 dq2) = dom dq1 ∪ dom dq2.
Proof.
  apply set_eq. intros key.
  rewrite elem_of_union, !elem_of_dom, lookup_merge.
  destruct (dq1 !! key), (dq2 !! key); simpl; split; eauto;
    intros [[? ?]|[? ?]]; done.
Qed.

End FloatKeys.

(** Exact arithmetic, any split. *)
Lemma scan_exact_split (L R : Z) (corpus corpus1 corpus2 : list region) :
  corpus ≡ₚ corpus1 ++ corpus2 ->
  (scan_corpus L R corpus).2 =
    merge_cooccurrences (scan_corpus L R corpus1).2 (scan_corpus L R corpus2).2.
Proof.
  intros Hsplit. rewrite (scan_corpus_perm_cooccurrences L R _ _ Hsplit).
  apply scan_corpus_app_cooccurrences.
Qed.

Open Scope string_scope.

(** C9 as stated fails on the code, whose weights are binary64 floats: with
    a window of 3, the scan of [[x, y], [x, y], [x, p, q, y]] adds
    1, 1 and 1/3 to the pair [(x, y)] in that order, while the scan of the
    first region merged with the scan of the other two adds 1 to (1 + 1/3);
    the two roundings differ, so the merged map is not the map of the whole
    corpus. *)
Lemma scan_split_float_differs :
  (scan_corpus_float 3 3 [["x"; "y"]; ["x"; "y"]; ["x"; "p"; "q"; "y"]]).2
  <> merge_float
       (scan_corpus_float 3 3 [["x"; "y"]]).2
       (scan_corpus_float 3 3 [["x"; "y"]; ["x"; "p"; "q"; "y"]]).2.
Proof.
  intros H.
  apply (f_equal (fun d : gmap (string * string) float =>
                    Prim2SF <$> d !! ("x", "y"))) in H.
  vm_compute in H. discriminate.
Qed.

Close Scope string_scope.

(** C9, as the code has it. However a corpus is split into two sub-corpora
    (the regions of the corpus are those of the two parts together, in any
    order): the map of the whole corpus and the key-by-key sum of the maps
    of the two parts, both accumulated in binary64 as the code does, have
    the same keys; the count of every word is the sum of its counts in the
    two parts; and the weights are equal when the additions are exact
    (rational arithmetic). *)
Theorem scan_corpus_split (L R : Z) (corpus corpus1 corpus2 : list region) :
  corpus ≡ₚ corpus1 ++ corpus2 ->
  dom (scan_corpus_float L R corpus).2
  = dom (merge_float (scan_corpus_float L R corpus1).2
           (scan_corpus_float L R corpus2).2)
  /\ (forall w : token,
         counter_get (scan_corpus_float L R corpus).1 w =
           (counter_get (scan_corpus_float L R corpus1).1 w
            + counter_get (scan_corpus_float L R corpus2).1 w)%nat)
  /\ (scan_corpus L R corpus).2 =
       merge_cooccurrences (scan_corpus L R corpus1).2
         (scan_corpus L R corpus2).2.
Proof.
  intros Hsplit.
  destruct (scan_corpus_float_spec L R corpus) as [Hc Hd].
  destruct (scan_corpus_float_spec L R corpus1) as [Hc1 Hd1].
  destruct (scan_corpus_float_spec L R corpus2) as [Hc2 Hd2].
  pose proof (scan_exact_split L R _ _ _ Hsplit) as Hexact.
  split; [|split; [|done]].
  - rewrite dom_merge_float, Hd, Hd1, Hd2, Hexact.
    apply dom_merge_cooccurrences.
  - intros w. rewrite Hc, Hc1, Hc2.
    rewrite (scan_corpus_perm_counts L R _ _ w Hsplit).
    apply scan_corpus_app_counts.
Qed.

Lemma scan_corpus_split_witness :
  dom (scan_corpus_float 1 2
         [["a"; "b"; "c"]; ["b"; "a"]; ["c"; "a"; "b"]]%string).2
  = dom (merge_float
           (scan_corpus_float 1 2 [["c"; "a"; "b"]; ["a"; "b"; "c"]]%string).2
           (scan_corpus_float 1 2 [["b"; "a"]]%string).2)
  /\ (forall w : token,
         counter_get
           (scan_corpus_float 1 2
              [["a"; "b"; "c"]; ["b"; "a"]; ["c"; "a"; "b"]]%string).1 w =
           (counter_get
              (scan_corpus_float 1 2
                 [["c"; "a"; "b"]; ["a"; "b"; "c"]]%string).1 w
            + counter_get (scan_corpus_float 1 2 [["b"; "a"]]%string).1 w)%nat)
  /\ (scan_corpus 1 2 [["a"; "b"; "c"]; ["b"; "a"]; ["c"; "a"; "b"]]%string).2 =
       merge_cooccurrences
         (scan_corpus 1 2 [["c"; "a"; "b"]; ["a"; "b"; "c"]]%string).2
         (scan_corpus 1 2 [["b"; "a"]]%string).2.
Proof.
  apply (scan_corpus_split 1 2
           [["a"; "b"; "c"]; ["b"; "a"]; ["c"; "a"; "b"]]%string
           [["c"; "a"; "b"]; ["a"; "b"; "c"]]%string
           [["b"; "a"]]%string).
  simpl. etrans; [|apply Permutation_swap].
  apply Permutation_skip, Permutation_swap.
Defined.

(** ** Keys of the co-occurrence map *)

Section Keys.

Implicit Types d : gmap (token * token) Qc.

Lemma add_weight_key d key w : is_Some (add_weight d key w !! key).
Proof. unfold add_weight. rewrite lookup_insert_eq. eauto. Qed.

Lemma keeps_keys_add_weight d key w key' :
  is_Some (d !! key') -> is_Some (add_weight d key w !! key').
Proof.
  intros Hk. unfold add_weight. rewrite lookup_insert.
  destruct (decide (key = key')); eauto.
Qed.

Lemma keeps_keys_foldl {X : Type}
    (op : gmap (token * token) Qc -> X -> gmap (token * token) Qc) :
  keeps_keys op -> keeps_keys (foldl op).
Proof.
  intros Hop d xs key. revert d.
  induction xs as [|x xs IH]; intros d Hk; simpl; [done|].
  apply IH. by apply Hop.
Qed.

Lemma keeps_keys_add_pairs (word : token) (l : list (nat * token)) d key :
  is_Some (d !! key) ->
  is_Some (foldl (fun d '(i, context_word) =>
                    add_weight d (word, context_word) (inv_distance i))
             d l !! key).
Proof.
  revert d. induction l as [|[i c] l IH]; intros d Hk; simpl; [done|].
  apply IH. by apply keeps_keys_add_weight.
Qed.

Lemma keeps_keys_add_context word : keeps_keys (add_context word).
Proof. intros d context key. apply keeps_keys_add_pairs. Qed.

Lemma keeps_keys_scan_window : keeps_keys scan_window.
Proof.
  intros d [[left_context word] right_context] key Hk. unfold scan_window.
  by do 2 apply keeps_keys_add_context.
Qed.

Lemma add_pairs_key (g : nat -> nat) (word : token) d (context : region)
    (c : token) :
  c ∈ context ->
  is_Some (foldl (fun d '(i, context_word) =>
                    add_weight d (word, context_word) (inv_distance i))
             d (imap (fun i x => (g i, x)) context) !! (word, c)).
Proof.
  intros Hc. revert g d.
  induction context as [|c' context IH]; intros g d; [by inversion Hc|].
  simpl. apply elem_of_cons in Hc as [->|Hc].
  - apply keeps_keys_add_pairs, add_weight_key.
  - apply (IH Hc (g ∘ S)).
Qed.

(** Every token of a context gets a key. *)
Lemma add_context_key word d (context : region) (c : token) :
  c ∈ context -> is_Some (add_context word d context !! (word, c)).
Proof. apply (add_pairs_key (fun i => i)). Qed.

Lemma scan_window_key d (left_context : region) word (right_context : region) c :
  c ∈ left_context ++ right_context ->
  is_Some (scan_window d (left_context, word, right_context) !! (word, c)).
Proof.
  intros Hc. unfold scan_window. apply elem_of_app in Hc as [Hc|Hc].
  - apply keeps_keys_add_context. apply add_context_key.
    by apply elem_of_reverse.
  - by apply add_context_key.
Qed.

Lemma keeps_keys_scan_from L R corpus wc d key :
  is_Some (d !! key) -> is_Some ((scan_from L R (wc, d) corpus).2 !! key).
Proof.
  unfold scan_from. revert wc d.
  induction corpus as [|r corpus IH]; intros wc d Hk; simpl; [done|].
  apply IH. by apply (keeps_keys_foldl _ keeps_keys_scan_window).
Qed.

(** A window with a non-empty context leaves a key in the map of the
    whole scan. *)
Lemma scan_corpus_key L R corpus (r : region) i
    (left_context : region) word (right_context : region) c :
  r ∈ corpus ->
  _context_windows r L R !! i = Some (left_context, word, right_context) ->
  c ∈ left_context ++ right_context ->
  is_Some ((scan_corpus L R corpus).2 !! (word, c)).
Proof.
  intros Hr Hw Hc.
  apply list_elem_of_split in Hr as (corpus1 & corpus2 & ->).
  unfold scan_corpus, scan_from. rewrite foldl_app. simpl.
  destruct (foldl (scan_region L R) ([], ∅) corpus1) as [wc d].
  unfold scan_region at 2. simpl.
  apply (keeps_keys_scan_from L R corpus2).
  rewrite <- (take_drop_middle _ _ _ Hw), foldl_app. simpl.
  apply (keeps_keys_foldl _ keeps_keys_scan_window).
  by apply scan_window_key.
Qed.

End Keys.

(** ** Matrix assembly *)

Section Matrix.

Variable word_to_id : gmap token nat.
Implicit Types m : gmap (nat * nat) Qc.

Lemma matrix_item_kept m item :
  kept word_to_id item = true ->
  matrix_item word_to_id m item = Py.Raise Py.KeyError.
Proof.
  destruct item as [[a b] count]. unfold matrix_item.
  intros Hk. rewrite Hk. apply andb_true_iff in Hk as [Ha _].
  unfold contains in Ha. apply bool_decide_eq_true in Ha as [i Hi].
  simpl in *. rewrite Hi. done.
Qed.

Lemma matrix_item_dropped m item :
  kept word_to_id item = false -> matrix_item word_to_id m item = Py.Ok m.
Proof.
  destruct item as [[a b] count]. unfold matrix_item. by intros ->.
Qed.

Lemma matrix_fold_raise e items :
  foldl (fun acc item => acc ≫= fun m => matrix_item word_to_id m item)
    (Py.Raise e) items = Py.Raise e.
Proof. induction items as [|x items IH]; simpl; [done|apply IH]. Qed.

Lemma matrix_fold_dropped m items :
  Forall (fun item => kept word_to_id item = false) items ->
  foldl (fun acc item => acc ≫= fun m => matrix_item word_to_id m item)
    (Py.Ok m) items = Py.Ok m.
Proof.
  induction 1 as [|x items Hx _ IH]; simpl; [done|].
  by rewrite matrix_item_dropped.
Qed.

Lemma matrix_fold_kept m items :
  Exists (fun item => kept word_to_id item = true) items ->
  foldl (fun acc item => acc ≫= fun m => matrix_item word_to_id m item)
    (Py.Ok m) items = Py.Raise Py.KeyError.
Proof.
  induction items as [|x items IH]; intros Hex; [by inversion Hex|].
  simpl. destruct (kept word_to_id x) eqn:Hx.
  - rewrite matrix_item_kept by done. apply matrix_fold_raise.
  - rewrite matrix_item_dropped by done. apply IH.
    inversion Hex; subst; [congruence|done].
Qed.

(** The comprehension raises [KeyError] as soon as one entry has both its
    words in [word_to_id], and builds the empty matrix otherwise. *)
Lemma build_matrix_cases (d : gmap (token * token) Qc) :
  (Exists (fun item => kept word_to_id item = true) (map_to_list d)
   /\ build_matrix word_to_id d = Py.Raise Py.KeyError)
  \/ (Forall (fun item => kept word_to_id item = false) (map_to_list d)
      /\ build_matrix word_to_id d = Py.Ok ∅).
Proof.
  unfold build_matrix.
  destruct (decide (Exists (fun item => kept word_to_id item = true)
                      (map_to_list d))) as [Hex|Hno].
  - left. split; [done|]. by apply matrix_fold_kept.
  - right. apply not_Exists_Forall in Hno; [|intros x; apply _].
    assert (Hall : Forall (fun item => kept word_to_id item = false)
                     (map_to_list d)).
    { eapply Forall_impl; [exact Hno|]. simpl. intros x Hx.
      by destruct (kept word_to_id x). }
    split; [done|]. by apply matrix_fold_dropped.
Qed.

(** The same, entry by entry. *)
Lemma build_matrix_key_error (d : gmap (token * token) Qc) (a b : token)
    (count : Qc) :
  d !! (a, b) = Some count ->
  is_Some (word_to_id !! a) -> is_Some (word_to_id !! b) ->
  build_matrix word_to_id d = Py.Raise Py.KeyError.
Proof.
  intros Hd Ha Hb.
  destruct (build_matrix_cases d) as [[_ H]|[Hall _]]; [done|].
  rewrite Forall_forall in Hall.
  specialize (Hall ((a, b), count)).
  rewrite elem_of_map_to_list in Hall. specialize (Hall Hd).
  unfold kept, contains in Hall. simpl in Hall.
  rewrite !bool_decide_eq_true_2 in Hall by done. done.
Qed.

Lemma build_matrix_all_dropped (d : gmap (token * token) Qc) :
  (forall a b count,
      d !! (a, b) = Some count ->
      ~ (is_Some (word_to_id !! a) /\ is_Some (word_to_id !! b))) ->
  build_matrix word_to_id d = Py.Ok ∅.
Proof.
  intros Hno.
  destruct (build_matrix_cases d) as [[Hex _]|[_ H]]; [|done].
  apply Exists_exists in Hex as ([[a b] count] & Hin & Hk).
  apply elem_of_map_to_list in Hin.
  unfold kept, contains in Hk. simpl in Hk.
  apply andb_true_iff in Hk as [Ha Hb].
  apply bool_decide_eq_true in Ha, Hb.
  by destruct (Hno a b count Hin).
Qed.

End Matrix.

Lemma fit_raises_cases (self : GloVe) (corpus : list region) :
  let d := (scan_corpus (left_context self) (right_context self) corpus).2 in
  (d = ∅ /\ fit self corpus = (self, Some (Py.ValueError empty_corpus_message)))
  \/ (d <> ∅ /\ ((fit self corpus).2 = None \/ (fit self corpus).2 = Some Py.KeyError)).
Proof.
  intros d. subst d. unfold fit.
  destruct (scan_corpus _ _ corpus) as [wc d]. simpl.
  destruct (decide (size d = 0%nat)) as [Hz|Hnz].
  - left. split; [by apply map_size_empty_iff|done].
  - right. split; [by rewrite <- map_size_empty_iff|].
    destruct (build_matrix_cases
                (index_words (select_words (vocab_size self) (min_occurrances self) wc)) d)
      as [[_ ->]|[_ ->]]; simpl; auto.
Qed.

(** ** Failures of fit *)

Lemma fit_empty_iff (self : GloVe) (corpus : list region) :
  (fit self corpus).2 = Some (Py.ValueError empty_corpus_message)
  <-> size (scan_corpus (left_context self) (right_context self) corpus).2 = 0%nat.
Proof.
  rewrite map_size_empty_iff.
  destruct (fit_raises_cases self corpus) as [[Hd ->]|[Hd [H|H]]];
    simpl; split; try done; rewrite H; done.
Qed.

Lemma fit_nil (self : GloVe) :
  fit self [] = (self, Some (Py.ValueError empty_corpus_message)).
Proof. reflexivity. Qed.

Open Scope string_scope.

(** C4. [fit] raises the empty-corpus error exactly when the co-occurrence
    map has no entry after the scan of the whole corpus. A corpus of zero
    sequences raises it; so does a generator that an earlier call of [fit]
    has drained; a corpus in which some window has a non-empty context does
    not. *)
Theorem fit_empty_corpus :
  (forall (self : GloVe) (corpus : list region),
      (fit self corpus).2 = Some (Py.ValueError empty_corpus_message)
      <-> size (scan_corpus (left_context self) (right_context self) corpus).2
          = 0%nat)
  /\ (forall self : GloVe,
         (fit self []).2 = Some (Py.ValueError empty_corpus_message))
  /\ (forall (self self' : GloVe) (g : generator),
         (fit_generator self' (fit_generator self g).2).1.2
         = Some (Py.ValueError empty_corpus_message))
  /\ (forall (self : GloVe) (corpus : list region) (r : region) (i : nat)
             (left_context' : region) (word : token) (right_context' : region),
         r ∈ corpus ->
         _context_windows r (left_context self) (right_context self) !! i
           = Some (left_context', word, right_context') ->
         (left_context' ++ right_context')%list <> [] ->
         (fit self corpus).2 <> Some (Py.ValueError empty_corpus_message)).
Proof.
  split; [apply fit_empty_iff|]. split; [done|]. split; [done|].
  intros self corpus r i lc word rc Hr Hw Hne.
  rewrite fit_empty_iff, map_size_empty_iff.
  destruct (lc ++ rc)%list as [|c cs] eqn:Hctx; [done|].
  assert (Hc : c ∈ (lc ++ rc)%list) by (rewrite Hctx; left).
  destruct (scan_corpus_key _ _ corpus r i lc word rc c Hr Hw Hc) as [x Hx].
  intros Hempty. rewrite Hempty in Hx. by rewrite lookup_empty in Hx.
Qed.

Lemma fit_empty_corpus_witness :
  (fit (toy_model 1 10 1) [["a"]; ["a"; "b"]]).2
  <> Some (Py.ValueError empty_corpus_message).
Proof.
  apply (proj2 (proj2 (proj2 fit_empty_corpus)) (toy_model 1 10 1)
           [["a"]; ["a"; "b"]] ["a"; "b"] 0%nat [] "a" ["b"]).
  - apply list_elem_of_In. simpl. auto.
  - reflexivity.
  - simpl. discriminate.
Defined.

(** C10. When [fit] raises the empty-corpus error the object is as it was
    before the call: in particular the word list, the word-to-id map and the
    co-occurrence matrix are untouched. *)
Theorem fit_empty_corpus_unchanged (self : GloVe) (corpus : list region) :
  (fit self corpus).2 = Some (Py.ValueError empty_corpus_message) ->
  (fit self corpus).1 = self
  /\ words (fit self corpus).1 = words self
  /\ word_to_id (fit self corpus).1 = word_to_id self
  /\ coocurrence_matrix (fit self corpus).1 = coocurrence_matrix self.
Proof.
  intros Hraise.
  destruct (fit_raises_cases self corpus) as [[_ Hfit]|[_ [H|H]]].
  - by rewrite Hfit.
  - rewrite H in Hraise. discriminate.
  - rewrite H in Hraise. discriminate.
Qed.

Lemma fit_empty_corpus_unchanged_witness :
  (fit (toy_model 1 10 1) [["a"]; ["b"]]).1 = toy_model 1 10 1
  /\ words (fit (toy_model 1 10 1) [["a"]; ["b"]]).1 = words (toy_model 1 10 1)
  /\ word_to_id (fit (toy_model 1 10 1) [["a"]; ["b"]]).1
     = word_to_id (toy_model 1 10 1)
  /\ coocurrence_matrix (fit (toy_model 1 10 1) [["a"]; ["b"]]).1
     = coocurrence_matrix (toy_model 1 10 1).
Proof.
  apply (fit_empty_corpus_unchanged (toy_model 1 10 1) [["a"]; ["b"]]).
  reflexivity.
Defined.

(** Whenever [fit] returns normally the matrix it stored is empty: an entry
    that passes the filter makes the comprehension raise [KeyError]. *)
Lemma fit_returns_empty_matrix (self : GloVe) (corpus : list region) :
  (fit self corpus).2 = None ->
  coocurrence_matrix (fit self corpus).1 = Some ∅.
Proof.
  unfold fit. destruct (scan_corpus _ _ corpus) as [wc d].
  destruct (decide (size d = 0%nat)); [done|].
  destruct (build_matrix_cases
              (index_words (select_words (vocab_size self) (min_occurrances self) wc)) d)
    as [[_ ->]|[_ ->]]; done.
Qed.

(** C1, on the corpus [[a, b]] with a window of 1: the co-occurrence map
    holds [((a, b), 1)] and both words are in the vocabulary, with ids 0 and
    1, yet [fit] raises [KeyError] out of the matrix comprehension (it looks
    the pair itself up in [word_to_id]) and leaves the matrix unassigned. *)
Theorem fit_matrix_key_error :
  (scan_corpus 1 1 [["a"; "b"]]).2 !! ("a", "b") = Some 1%Qc
  /\ words (fit (toy_model 1 10 1) [["a"; "b"]]).1 = Some ["a"; "b"]
  /\ (fit (toy_model 1 10 1) [["a"; "b"]]).2 = Some Py.KeyError
  /\ coocurrence_matrix (fit (toy_model 1 10 1) [["a"; "b"]]).1 = None.
Proof. repeat split; vm_compute; reflexivity. Qed.
Close Scope string_scope.

(** ** Vocabulary selection *)

Section Ranking.

Implicit Types c l : list (token * nat).

Lemma insert_desc_perm x l : insert_desc x l ≡ₚ x :: l.
Proof.
  induction l as [|y l IH]; simpl; [done|].
  destruct (x.2 <? y.2)%nat; [|done].
  rewrite IH. apply Permutation_swap.
Qed.

Lemma sorted_desc_perm c : sorted_desc c ≡ₚ c.
Proof.
  induction c as [|x c IH]; simpl; [done|].
  by rewrite insert_desc_perm, IH.
Qed.

Lemma ranks_before_count c x y : ranks_before c x y -> (y.2 <= x.2)%nat.
Proof. intros [H|[H _]]; lia. Qed.

Lemma ranks_before_cons c z x y :
  ranks_before c x y -> ranks_before (z :: c) x y.
Proof.
  intros [H|[H (i & j & Hij & Hi & Hj)]]; [by left|].
  right. split; [done|]. exists (S i), (S j). split; [lia|done].
Qed.

(** Inserting the head of the counter among its ranked tail. *)
Lemma insert_desc_sorted c x l :
  (forall y, y ∈ l -> y ∈ c) ->
  StronglySorted (ranks_before (x :: c)) l ->
  StronglySorted (ranks_before (x :: c)) (insert_desc x l).
Proof.
  intros Hin Hs. induction Hs as [|y l Hs IH Hy]; simpl.
  - repeat constructor.
  - assert (Hyc : y ∈ c) by (apply Hin; left).
    apply list_elem_of_lookup in Hyc as [j Hj].
    destruct (Nat.ltb_spec x.2 y.2) as [Hlt|Hge].
    + constructor.
      * apply IH. intros z Hz. apply Hin. by right.
      * rewrite Forall_forall in *. intros z Hz.
        rewrite insert_desc_perm in Hz.
        apply elem_of_cons in Hz as [->|Hz]; [by left|by apply Hy].
    + assert (Hxy : ranks_before (x :: c) x y).
      { destruct (decide (x.2 = y.2)) as [Heq|Hne]; [|left; lia].
        right. split; [done|]. exists 0%nat, (S j). split; [lia|done]. }
      constructor; [by constructor|].
      constructor; [done|].
      rewrite Forall_forall in *. intros z Hz.
      assert (Hzc : z ∈ c) by (apply Hin; by right).
      apply list_elem_of_lookup in Hzc as [k Hk].
      pose proof (ranks_before_count _ _ _ (Hy z Hz)) as Hzy.
      destruct (decide (x.2 = z.2)) as [Heq|Hne]; [|left; lia].
      right. split; [done|]. exists 0%nat, (S k). split; [lia|done].
Qed.

Lemma sorted_desc_sorted c : StronglySorted (ranks_before c) (sorted_desc c).
Proof.
  induction c as [|x c IH]; simpl; [constructor|].
  apply insert_desc_sorted.
  - intros y Hy. by rewrite sorted_desc_perm in Hy.
  - clear -IH. induction IH as [|y l Hs IH' Hy]; constructor; [done|].
    eapply Forall_impl; [exact Hy|]. intros z. apply ranks_before_cons.
Qed.

End Ranking.

Lemma enumerate_snoc {A : Type} (l : list A) (x : A) :
  Py.enumerate (l ++ [x]) = Py.enumerate l ++ [(length l, x)].
Proof.
  unfold Py.enumerate. rewrite imap_app. simpl.
  by rewrite Nat.add_0_r.
Qed.

Lemma index_words_snoc (ws : list token) (w : token) :
  index_words (ws ++ [w]) = <[w := length ws]> (index_words ws).
Proof. unfold index_words. by rewrite enumerate_snoc, foldl_app. Qed.

(** On a list without duplicates, [word_to_id] and the list's indexing are
    inverse to each other. *)
Lemma index_words_lookup (ws : list token) (w : token) (i : nat) :
  NoDup ws -> index_words ws !! w = Some i <-> ws !! i = Some w.
Proof.
  revert w i. induction ws as [|x ws IH] using rev_ind; intros w i Hnd.
  - unfold index_words. simpl. rewrite lookup_empty. done.
  - apply NoDup_app in Hnd as (Hnd & Hx & _).
    rewrite index_words_snoc, lookup_insert, lookup_snoc_Some.
    destruct (decide (x = w)) as [->|Hne].
    + split.
      * intros [= <-]. right. done.
      * intros [[Hi Hw]|[Hi _]]; [|by rewrite Hi].
        exfalso. apply (Hx w); [|left].
        apply list_elem_of_lookup. eauto.
    + rewrite (IH w i Hnd). split.
      * intros Hw. left. split; [|done]. by eapply lookup_lt_Some.
      * intros [[_ Hw]|[_ Hw]]; [done|congruence].
Qed.

Section CounterKeys.

Implicit Types c : list (token * nat).

Lemma counter_incr_keys c w :
  (counter_incr c w).*1 = if decide (w ∈ c.*1) then c.*1 else c.*1 ++ [w].
Proof.
  induction c as [|[k n] c IH].
  - reflexivity.
  - cbn [counter_incr fmap list_fmap fst].
    destruct (decide (k = w)) as [->|Hk].
    + rewrite decide_True by left. done.
    + cbn [fmap list_fmap fst]. rewrite IH.
      destruct (decide (w ∈ c.*1)) as [Hw|Hw].
      * rewrite decide_True by (by right). done.
      * rewrite decide_False; [done|].
        intros [?|?]%elem_of_cons; congruence.
Qed.

Lemma counter_incr_nodup c w : NoDup c.*1 -> NoDup (counter_incr c w).*1.
Proof.
  intros Hnd. rewrite counter_incr_keys.
  destruct (decide (w ∈ c.*1)) as [Hw|Hw]; [done|].
  apply NoDup_app. split; [done|]. split; [|apply NoDup_singleton].
  intros x Hx ->%list_elem_of_singleton. done.
Qed.

Lemma counter_update_nodup c (r : region) :
  NoDup c.*1 -> NoDup (counter_update c r).*1.
Proof.
  unfold counter_update. revert c.
  induction r as [|t r IH]; intros c Hnd; simpl; [done|].
  by apply IH, counter_incr_nodup.
Qed.

Lemma scan_from_nodup L R corpus c d :
  NoDup c.*1 -> NoDup (scan_from L R (c, d) corpus).1.*1.
Proof.
  unfold scan_from. revert c d.
  induction corpus as [|r corpus IH]; intros c d Hnd; simpl; [done|].
  unfold scan_region at 2. simpl. by apply IH, counter_update_nodup.
Qed.

End CounterKeys.

Lemma fit_vocabulary (self : GloVe) (corpus : list region) :
  (fit self corpus).2 <> Some (Py.ValueError empty_corpus_message) ->
  let ws := select_words (vocab_size self) (min_occurrances self)
              (scan_corpus (left_context self) (right_context self) corpus).1 in
  words (fit self corpus).1 = Some ws
  /\ word_to_id (fit self corpus).1 = Some (index_words ws).
Proof.
  unfold fit. destruct (scan_corpus _ _ corpus) as [wc d].
  destruct (decide (size d = 0%nat)); [done|].
  intros _. simpl. by destruct (build_matrix _ d).
Qed.

Open Scope string_scope.

(** C7. For every word-count map (distinct keys, in first-encounter order):
    the ranking used by [fit] holds the same entries, by descending count
    and, for equal counts, in first-encounter order; the vocabulary is made
    of the words among the first [vocab_size] of that ranking whose count is
    at least [min_occurrances], in the order of the ranking; it has no
    duplicates, and [word_to_id] sends each word to its index in the list
    and nothing else, a bijection onto [0..n-1]. The word counts of a scan
    have distinct keys, and [fit] stores this vocabulary whenever it gets
    past the empty-corpus check. Counts [a:5, b:3, c:1] with
    [vocab_size = 2] give [a, b]; with [min_occurrances = 4], [a]. *)
Theorem vocabulary_spec :
  (forall (word_counts : list (token * nat)) (vocab_size min_occurrances : Z),
      NoDup word_counts.*1 ->
      let ranked := sorted_desc word_counts in
      let ws := select_words vocab_size min_occurrances word_counts in
      ranked ≡ₚ word_counts
      /\ StronglySorted (ranks_before word_counts) ranked
      /\ (forall w : token,
             w ∈ ws <->
             exists i n : nat,
               Z.of_nat i < vocab_size /\ ranked !! i = Some (w, n)
               /\ min_occurrances <= Z.of_nat n)
      /\ ws `sublist_of` ranked.*1
      /\ NoDup ws
      /\ (forall (w : token) (i : nat),
             index_words ws !! w = Some i <-> ws !! i = Some w))
  /\ (forall (L R : Z) (corpus : list region),
         NoDup (scan_corpus L R corpus).1.*1)
  /\ (forall (self : GloVe) (corpus : list region),
         (fit self corpus).2 <> Some (Py.ValueError empty_corpus_message) ->
         let ws := select_words (vocab_size self) (min_occurrances self)
                     (scan_corpus (left_context self) (right_context self)
                        corpus).1 in
         words (fit self corpus).1 = Some ws
         /\ word_to_id (fit self corpus).1 = Some (index_words ws))
  /\ select_words 2 1 [("a", 5%nat); ("b", 3%nat); ("c", 1%nat)] = ["a"; "b"]
  /\ select_words 2 4 [("a", 5%nat); ("b", 3%nat); ("c", 1%nat)] = ["a"].
Proof.
  split; [|split; [|split; [apply fit_vocabulary|split; reflexivity]]].
  - intros wc vs mo Hnd ranked ws.
    assert (Hsub : ws `sublist_of` ranked.*1).
    { unfold ws, select_words, most_common. apply fmap_sublist.
      etrans; [apply sublist_filter|apply sublist_take]. }
    assert (Hndws : NoDup ws).
    { eapply sublist_NoDup; [|exact Hsub].
      unfold ranked. by rewrite sorted_desc_perm. }
    split; [apply sorted_desc_perm|]. split; [apply sorted_desc_sorted|].
    split; [|split; [done|split; [done|]]].
    + intros w. unfold ws, select_words, most_common.
      rewrite list_elem_of_fmap. split.
      * intros ([w' n] & -> & [Hn Hin]%list_elem_of_filter).
        apply elem_of_take in Hin as (i & Hi & Hlt).
        exists i, n. simpl in *. split; [lia|done].
      * intros (i & n & Hlt & Hi & Hn). exists (w, n). split; [done|].
        apply list_elem_of_filter. split; [done|].
        apply elem_of_take. exists i. split; [done|lia].
    + intros w i. by apply index_words_lookup.
  - intros L R corpus. apply scan_from_nodup. constructor.
Qed.

Lemma vocabulary_spec_witness :
  let word_counts := [("a", 2%nat); ("b", 3%nat); ("c", 2%nat)] in
  let ranked := sorted_desc word_counts in
  let ws := select_words 2 1 word_counts in
  ranked ≡ₚ word_counts
  /\ StronglySorted (ranks_before word_counts) ranked
  /\ (forall w : token,
         w ∈ ws <->
         exists i n : nat,
           Z.of_nat i < 2 /\ ranked !! i = Some (w, n) /\ 1 <= Z.of_nat n)
  /\ ws `sublist_of` ranked.*1
  /\ NoDup ws
  /\ (forall (w : token) (i : nat),
         index_words ws !! w = Some i <-> ws !! i = Some w).
Proof.
  apply (proj1 vocabulary_spec [("a", 2%nat); ("b", 3%nat); ("c", 2%nat)] 2 1).
  simpl. apply NoDup_ListNoDup. repeat constructor; simpl; intuition discriminate.
Defined.
Close Scope string_scope.

(** ** Construction *)

Lemma init_context_int (z : Z) : init_context (PyInt z) = Py.Ok (z, z).
Proof. reflexivity. Qed.

Lemma init_context_not_int (context_size : pyval) :
  (forall z, context_size <> PyInt z) ->
  exists msg, init_context context_size = Py.Raise (Py.ValueError msg).
Proof.
  intros Hni. unfold init_context.
  destruct context_size as [z| | | |items|]; try (by eexists).
  - by destruct (Hni z).
  - destruct items as [|a [|b [|c items]]]; by eexists.
Qed.

(** C2. Construction with an int [z] succeeds and sets both window sizes to
    [z]. Construction with a pair of ints raises [ValueError] with the
    context-size message: the test for [int] is a second [if], not an
    [elif], so its [else] branch runs for a tuple after the unpacking.
    Every other shape raises [ValueError] too. *)
Theorem init_context_size :
  (forall (e z v m : Z) (x a : R) (p : parameters),
      exists self,
        __init__ e (PyInt z) v m x a p = Py.Ok self
        /\ left_context self = z /\ right_context self = z)
  /\ (forall (e l r v m : Z) (x a : R) (p : parameters),
         __init__ e (PyTuple [PyInt l; PyInt r]) v m x a p
         = Py.Raise (Py.ValueError context_size_message))
  /\ (forall (e v m : Z) (context_size : pyval) (x a : R) (p : parameters),
         (forall z, context_size <> PyInt z) ->
         exists msg,
           __init__ e context_size v m x a p = Py.Raise (Py.ValueError msg)).
Proof.
  split; [|split].
  - intros. eexists. split; [reflexivity|done].
  - reflexivity.
  - intros e v m cs x a p Hni. unfold __init__.
    destruct (init_context_not_int cs Hni) as [msg ->]. by exists msg.
Qed.

(** ** The loss *)

Open Scope R_scope.

Lemma lookup_batch_ok {A : Type} (d : A) (table : list A) (ids : list nat) :
  Forall (fun i => (i < length table)%nat) ids ->
  lookup_batch table ids = Py.Ok ((fun i => default d (table !! i)) <$> ids).
Proof.
  induction 1 as [|i ids Hi _ IH]; simpl; [done|].
  destruct (lookup_lt_is_Some_2 table i Hi) as [x Hx].
  rewrite Hx, IH. done.
Qed.

Lemma broadcast_same_length {A B C : Type} (f : A -> B -> C)
    (xs : list A) (ys : list B) :
  length xs = length ys -> broadcast f xs ys = Py.Ok (zip_with f xs ys).
Proof. intros Hlen. unfold broadcast. by rewrite decide_True. Qed.

(** The clamp is [min(1, .)]. *)
Lemma clamp_one_min (w : R) : clamp_one w = Rmin 1 w.
Proof.
  unfold clamp_one, Rmin.
  destruct (Rlt_dec 1 w), (Rle_dec 1 w); lra.
Qed.

Lemma sum_batch (self : GloVe) (fs cs : list nat) (xs : list R) :
  length fs = length cs -> length cs = length xs ->
  sum_list
    (zip_with Rmult (weight_factor self <$> xs)
       ((fun x => x ^ 2) <$>
          zip_with Rplus
            (zip_with Rplus
               (zip_with Rplus
                  (zip_with row_dot
                     ((fun i => default [] (focal_embeddings self !! i)) <$> fs)
                     ((fun i => default [] (context_embeddings self !! i)) <$> cs))
                  ((fun i => default 0 (focal_biases self !! i)) <$> fs))
               ((fun i => default 0 (context_biases self !! i)) <$> cs))
            (ln <$> xs)))
  = batch_loss self fs cs xs.
Proof.
  revert cs xs. induction fs as [|f fs IH]; intros [|c cs] [|x xs] Hfc Hcx;
    try discriminate; [done|].
  simpl in *. rewrite IH by lia.
  unfold pair_loss, weight_factor. by rewrite clamp_one_min.
Qed.

(** On a batch of equal lengths whose ids are rows of the tables, [forward]
    returns the sum of the pair losses. *)
Lemma forward_batch (self : GloVe) (fs cs : list nat) (xs : list R) :
  length fs = length cs -> length cs = length xs ->
  focal_in_range self fs -> context_in_range self cs ->
  forward self fs cs xs = Py.Ok (batch_loss self fs cs xs).
Proof.
  intros Hfc Hcx Hf Hc. unfold forward.
  rewrite (lookup_batch_ok [] (focal_embeddings self) fs)
    by (eapply Forall_impl; [exact Hf|]; by intros i [? ?]).
  rewrite (lookup_batch_ok [] (context_embeddings self) cs)
    by (eapply Forall_impl; [exact Hc|]; by intros i [? ?]).
  rewrite (lookup_batch_ok 0 (focal_biases self) fs)
    by (eapply Forall_impl; [exact Hf|]; by intros i [? ?]).
  rewrite (lookup_batch_ok 0 (context_biases self) cs)
    by (eapply Forall_impl; [exact Hc|]; by intros i [? ?]).
  cbn [mbind Py.result_bind].
  rewrite broadcast_same_length by (rewrite !length_fmap; lia).
  cbn [mbind Py.result_bind].
  rewrite broadcast_same_length
    by (rewrite length_zip_with, !length_fmap; lia).
  cbn [mbind Py.result_bind].
  rewrite broadcast_same_length
    by (rewrite !length_zip_with, !length_fmap; lia).
  cbn [mbind Py.result_bind].
  rewrite broadcast_same_length
    by (rewrite !length_zip_with, !length_fmap; lia).
  cbn [mbind Py.result_bind].
  rewrite broadcast_same_length
    by (rewrite !length_fmap, !length_zip_with, !length_fmap; lia).
  cbn [mbind Py.result_bind mret Py.result_ret].
  f_equal. by apply sum_batch.
Qed.

Close Scope R_scope.

Open Scope R_scope.

Lemma lookup_batch_raises {A : Type} (table : list A) (ids : list nat) e :
  lookup_batch table ids = Py.Raise e -> e = Py.IndexError.
Proof.
  revert e. induction ids as [|i ids IH]; intros e; simpl; [done|].
  destruct (table !! i); [|by intros [= <-]].
  destruct (lookup_batch table ids); simpl; [done|].
  intros [= <-]. by apply IH.
Qed.

Lemma broadcast_raises {A B C : Type} (f : A -> B -> C)
    (xs : list A) (ys : list B) e :
  broadcast f xs ys = Py.Raise e -> e = Py.RuntimeError.
Proof.
  unfold broadcast. destruct (decide (length xs = length ys)); [done|].
  destruct xs as [|x [|x' xs]], ys as [|y [|y' ys]]; try done;
    by intros [= <-].
Qed.

(** [forward] raises nothing but the tensor library's own errors: an id out
    of range, or batches whose lengths cannot be broadcast. *)
Lemma forward_raises (self : GloVe) (fs cs : list nat) (xs : list R) e :
  forward self fs cs xs = Py.Raise e ->
  e = Py.IndexError \/ e = Py.RuntimeError.
Proof.
  unfold forward.
  repeat
    (match goal with
     | |- context [lookup_batch ?t ?i] =>
         let H := fresh "H" in
         destruct (lookup_batch t i) eqn:H;
         [|apply lookup_batch_raises in H; subst; intros [= <-]; by left]
     | |- context [broadcast ?f ?a ?b] =>
         let H := fresh "H" in
         destruct (broadcast f a b) eqn:H;
         [|apply broadcast_raises in H; subst; intros [= <-]; by right]
     end; cbn [mbind Py.result_bind]).
  done.
Qed.

Lemma Rpower_ge_1 (x a : R) : 1 <= x -> 0 <= a -> 1 <= Rpower x a.
Proof.
  intros Hx Ha. unfold Rpower. rewrite <- exp_0 at 1.
  assert (Hln : 0 <= ln x).
  { destruct Hx as [Hx| <-]; [|rewrite ln_1; lra].
    left. rewrite <- ln_1. apply ln_increasing; lra. }
  assert (H0 : 0 <= a * ln x) by nra.
  destruct H0 as [H0| <-]; [left; by apply exp_increasing|right; done].
Qed.

Lemma Rpower_ten_ge_1 (a : R) : 0 <= a -> 1 <= Rpower 10 a.
Proof.
  intros Ha. unfold Rpower. rewrite <- exp_0 at 1.
  assert (Hln : 0 < ln 10) by (rewrite <- ln_1; apply ln_increasing; lra).
  destruct Ha as [Ha| <-].
  - left. apply exp_increasing. by apply Rmult_lt_0_compat.
  - right. f_equal. ring.
Qed.

Lemma weight_factor_saturated (self : GloVe) (count : R) :
  0 < count -> count = 10 * x_max self -> 0 <= alpha self ->
  weight_factor self count = 1.
Proof.
  intros Hpos Hcount Halpha. unfold weight_factor.
  replace (count / x_max self) with 10 by (subst count; field; lra).
  pose proof (Rpower_ten_ge_1 _ Halpha) as Hge.
  unfold clamp_one. destruct (Rlt_dec 1 (Rpower 10 (alpha self))); lra.
Qed.

Lemma weight_factor_above_cutoff (self : GloVe) (count : R) :
  0 < x_max self -> x_max self <= count -> 0 <= alpha self ->
  weight_factor self count = 1.
Proof.
  intros Hmax Hcount Halpha. unfold weight_factor.
  assert (Hbase : 1 <= count / x_max self).
  { apply Rmult_le_reg_r with (x_max self); [done|].
    replace (count / x_max self * x_max self) with count by (field; lra).
    lra. }
  pose proof (Rpower_ge_1 _ _ Hbase Halpha) as Hge.
  unfold clamp_one. destruct (Rlt_dec 1 _); lra.
Qed.

Lemma weight_factor_negative_alpha :
  weight_factor (with_weighting (toy_model 1 10 1) 1 (-1)) 10 = / 10.
Proof.
  unfold weight_factor. simpl.
  replace (10 / 1) with 10 by field.
  replace (-1) with (- (1)) by lra.
  rewrite Rpower_Ropp, Rpower_1 by lra.
  unfold clamp_one. destruct (Rlt_dec 1 (/ 10)); lra.
Qed.

Lemma toy_model_in_range :
  focal_in_range (toy_model 1 10 1) [0; 1]%nat
  /\ context_in_range (toy_model 1 10 1) [1; 2]%nat.
Proof. split; repeat constructor; simpl; lia. Qed.

(** C3, as the code has it. [forward] does not look at the sign of the
    counts: on every batch of equal lengths whose ids are rows of the
    tables it returns a value, whatever the counts are, and the only
    exceptions it can raise are the tensor library's index and shape
    errors; there is no invalid-count error. *)
Theorem forward_no_count_check :
  (forall (self : GloVe) (fs cs : list nat) (xs : list R),
      length fs = length cs -> length cs = length xs ->
      focal_in_range self fs -> context_in_range self cs ->
      exists v, forward self fs cs xs = Py.Ok v)
  /\ (forall (self : GloVe) (fs cs : list nat) (xs : list R) (e : Py.exn),
         forward self fs cs xs = Py.Raise e ->
         e = Py.IndexError \/ e = Py.RuntimeError).
Proof.
  split; [|apply forward_raises].
  intros self fs cs xs Hfc Hcx Hf Hc. eexists. by apply forward_batch.
Qed.

Lemma forward_no_count_check_witness :
  exists v, forward (toy_model 1 10 1) [0; 1]%nat [1; 2]%nat [0; -1] = Py.Ok v.
Proof.
  apply (proj1 forward_no_count_check (toy_model 1 10 1)
           [0; 1]%nat [1; 2]%nat [0; -1]);
    [reflexivity | reflexivity | apply toy_model_in_range
    | apply toy_model_in_range].
Defined.

(** C3 as stated fails: a batch whose count is 0, and one whose count is
    -1, are evaluated to a value; no exception is raised. *)
Lemma forward_nonpositive_count_returns :
  (exists v, forward (toy_model 1 10 1) [0]%nat [1]%nat [0] = Py.Ok v)
  /\ (exists v, forward (toy_model 1 10 1) [0]%nat [1]%nat [-1] = Py.Ok v).
Proof.
  split; eexists; apply forward_batch; try reflexivity;
    repeat constructor; simpl; lia.
Qed.

(** C8, as the code has it. For a positive cutoff [x_max], on a batch of
    ids and strictly positive counts [forward] returns the sum over the
    batch of
    [min(1, (count / x_max) ^ alpha) *
     (dot(focal, context) + focal_bias + context_bias + log count) ^ 2];
    for a positive cutoff and every [alpha >= 0] the weight factor is 1 for
    every count from the cutoff on; in particular it is 1 for
    [count = 10 * x_max > 0] and every [alpha >= 0]. *)
Theorem forward_weighted_loss :
  (forall (self : GloVe) (fs cs : list nat) (xs : list R),
      0 < x_max self ->
      length fs = length cs -> length cs = length xs ->
      focal_in_range self fs -> context_in_range self cs ->
      Forall (fun x => 0 < x) xs ->
      forward self fs cs xs = Py.Ok (batch_loss self fs cs xs))
  /\ (forall (self : GloVe) (count : R),
         0 < x_max self -> x_max self <= count -> 0 <= alpha self ->
         weight_factor self count = 1)
  /\ (forall (self : GloVe) (count : R),
         0 < count -> count = 10 * x_max self -> 0 <= alpha self ->
         weight_factor self count = 1).
Proof.
  split; [|split; [apply weight_factor_above_cutoff
                  |apply weight_factor_saturated]].
  intros self fs cs xs _ Hfc Hcx Hf Hc _. by apply forward_batch.
Qed.

Lemma forward_weighted_loss_witness :
  forward (toy_model 1 10 1) [0; 1]%nat [1; 2]%nat [1; 1000]
  = Py.Ok (batch_loss (toy_model 1 10 1) [0; 1]%nat [1; 2]%nat [1; 1000])
  /\ weight_factor (toy_model 1 10 1) 250 = 1
  /\ weight_factor (toy_model 1 10 1) 1000 = 1.
Proof.
  split; [|split].
  - apply (proj1 forward_weighted_loss (toy_model 1 10 1)
             [0; 1]%nat [1; 2]%nat [1; 1000]);
      [unfold toy_model, default_x_max; simpl; lra
      | reflexivity | reflexivity | apply toy_model_in_range
      | apply toy_model_in_range | repeat constructor; lra].
  - apply (proj1 (proj2 forward_weighted_loss) (toy_model 1 10 1) 250);
      unfold toy_model, default_x_max, default_alpha; simpl; lra.
  - apply (proj2 (proj2 forward_weighted_loss) (toy_model 1 10 1) 1000);
      unfold toy_model, default_x_max, default_alpha; simpl; lra.
Defined.

(** C8 as stated fails for a negative exponent: with [x_max = 1] and
    [alpha = -1], the count [10 = 10 * x_max] has weight factor 1/10. *)
Lemma weight_factor_not_saturated :
  0 < 10
  /\ 10 = 10 * x_max (with_weighting (toy_model 1 10 1) 1 (-1))
  /\ weight_factor (with_weighting (toy_model 1 10 1) 1 (-1)) 10 <> 1.
Proof.
  split; [lra|]. split; [simpl; lra|].
  rewrite weight_factor_negative_alpha. lra.
Qed.

Close Scope R_scope.

(** * Further properties *)

(** ** Windows, in general *)

Lemma slice_infix {A : Type} (l : list A) (s e : Z) :
  exists before after, l = before ++ Py.slice l s e ++ after.
Proof.
  unfold Py.slice.
  set (a := Z.to_nat (Py.slice_bound (Z.of_nat (length l)) s)).
  set (k := Z.to_nat _).
  exists (take a l), (drop k (drop a l)).
  by rewrite (take_drop k (drop a l)), take_drop.
Qed.

Lemma window_tokens (r : region) (s e : Z) :
  -1 <= e ->
  Some <$> _window r s e =
    tokens_between r (Z.max s 0) (Z.min e (Z.of_nat (length r) - 1)).
Proof.
  intros He. unfold _window, tokens_between.
  rewrite slice_nonneg by lia.
  destruct (decide (Z.max s 0 <= Z.of_nat (length r))) as [Hs|Hs].
  - rewrite take_drop_lookups by lia.
    f_equal; [|f_equal; lia].
    replace (Z.to_nat (Z.min (Z.max s 0) (Z.of_nat (length r))))
      with (Z.to_nat (Z.max s 0)) by lia. done.
  - replace (Z.to_nat (Z.min e (Z.of_nat (length r) - 1) + 1 - Z.max s 0))
      with 0%nat by lia.
    match goal with |- context [take ?k _] => replace k with 0%nat by lia end.
    done.
Qed.

(** X1. [_window] clamps both indices to the region and never pads, whatever
    its docstring says: for [end_index >= -1] it returns exactly the tokens
    at the indices [max(start_index, 0) .. min(end_index, len - 1)], in
    order (none when that range is empty); and for all indices the result
    is a contiguous piece of the region. *)
Theorem window_clamped :
  (forall (r : region) (start_index end_index : Z),
      -1 <= end_index ->
      Some <$> _window r start_index end_index =
        tokens_between r (Z.max start_index 0)
          (Z.min end_index (Z.of_nat (length r) - 1)))
  /\ (forall (r : region) (start_index end_index : Z),
         exists before after : region,
           r = before ++ _window r start_index end_index ++ after).
Proof.
  split; [apply window_tokens|].
  intros r s e. unfold _window. apply slice_infix.
Qed.

Lemma window_clamped_witness :
  Some <$> _window ["a"; "d"; "f"; "e"]%string 2 16 =
    tokens_between ["a"; "d"; "f"; "e"]%string (Z.max 2 0)
      (Z.min 16 (Z.of_nat (length ["a"; "d"; "f"; "e"]%string) - 1)).
Proof.
  apply (proj1 window_clamped ["a"; "d"; "f"; "e"]%string 2 16). lia.
Defined.

(** The windows of a region with the sizes read as natural numbers: the left
    context is what is left of the [i] tokens before position [i] after
    dropping all but the last [L]; the right context is the first [R] tokens
    after position [i]. *)
Lemma context_windows_nat (r : region) (L R : Z) :
  0 <= R ->
  _context_windows r L R =
    imap (fun (i : nat) (word : token) =>
            (drop (i - Z.to_nat L) (take i r), word,
             take (Z.to_nat R) (drop (S i) r))) r.
Proof.
  intros HR. unfold _context_windows. apply imap_ext.
  intros i word Hw. apply lookup_lt_Some in Hw.
  unfold _window. rewrite !slice_nonneg by lia. f_equal; [f_equal|].
  - destruct (decide (0 <= L)) as [HL|HL].
    + rewrite take_drop_commute. f_equal; [lia|]. f_equal. lia.
    + match goal with |- context [take ?k (drop _ _)] =>
        replace k with 0%nat by lia end.
      rewrite (drop_ge (take i r)); [done|]. rewrite length_take. lia.
  - replace (Z.to_nat (Z.min (Z.max (Z.of_nat i + 1) 0) (Z.of_nat (length r))))
      with (S i) by lia.
    match goal with |- take ?k _ = _ =>
      replace k with (Z.to_nat R `min` (length r - S i))%nat by lia end.
    rewrite <- (length_drop r (S i)), <- take_take.
    by rewrite (take_ge (drop (S i) r)).
Qed.

(** X2. For a right size [R >= 0], the left context at position [i] is the
    last [min(i, L)] tokens before [i] and the right context the first
    [min(R, n - 1 - i)] tokens after it ([L <= 0] gives an empty left
    context): windows shrink at the ends of the region, and a region of a
    single token has both contexts empty. *)
Theorem context_lengths (r : region) (L R : Z) (i : nat)
    (left_context' : region) (word : token) (right_context' : region) :
  0 <= R ->
  _context_windows r L R !! i = Some (left_context', word, right_context') ->
  left_context' = drop (i - Z.to_nat L) (take i r)
  /\ right_context' = take (Z.to_nat R) (drop (S i) r)
  /\ length left_context' = (i `min` Z.to_nat L)%nat
  /\ length right_context' = (Z.to_nat R `min` (length r - 1 - i))%nat
  /\ (length r = 1%nat -> left_context' = [] /\ right_context' = []).
Proof.
  intros HR Hw. rewrite context_windows_nat in Hw by done.
  rewrite list_lookup_imap in Hw.
  destruct (r !! i) as [w|] eqn:Hi; [|done]. apply lookup_lt_Some in Hi.
  injection Hw as <- <- <-.
  assert (Hl : length (drop (i - Z.to_nat L) (take i r)) = (i `min` Z.to_nat L)%nat)
    by (rewrite length_drop, length_take; lia).
  assert (Hr : length (take (Z.to_nat R) (drop (S i) r))
               = (Z.to_nat R `min` (length r - 1 - i))%nat)
    by (rewrite length_take, length_drop; lia).
  repeat split; try done.
  - apply nil_length_inv. lia.
  - apply nil_length_inv. lia.
Qed.

Lemma context_lengths_witness :
  ["a"]%string = drop (1 - Z.to_nat 1) (take 1 ["a"; "b"]%string)
  /\ [] = take (Z.to_nat 3) (drop 2 ["a"; "b"]%string)
  /\ length ["a"]%string = (1 `min` Z.to_nat 1)%nat
  /\ length (@nil string) = (Z.to_nat 3 `min` (length ["a"; "b"]%string - 1 - 1))%nat
  /\ (length ["a"; "b"]%string = 1%nat -> ["a"]%string = [] /\ @nil string = []).
Proof.
  apply (context_lengths ["a"; "b"]%string 1 3 1 ["a"]%string "b"%string []);
    [lia | reflexivity].
Defined.

(** ** Invariants of the scan *)

Lemma inv_distance_pos (i : nat) : (0 < inv_distance i)%Qc.
Proof.
  unfold inv_distance, Qclt, Q2Qc. cbn [this]. rewrite !Qred_correct.
  reflexivity.
Qed.

Lemma Qc_add_pos (a b : Qc) : (0 <= a)%Qc -> (0 < b)%Qc -> (0 < a + b)%Qc.
Proof.
  unfold Qcle, Qclt, Qcplus, Q2Qc. cbn [this]. intros Ha Hb.
  rewrite !Qred_correct in *.
  apply Qlt_le_trans with (0 + this b)%Q.
  - by rewrite Qplus_0_l.
  - by apply Qplus_le_l.
Qed.

Section Positive.

Implicit Types d : gmap (token * token) Qc.

Lemma all_positive_add_weight d key w :
  (0 < w)%Qc -> all_positive d -> all_positive (add_weight d key w).
Proof.
  intros Hw Hd key' w'. unfold add_weight. rewrite lookup_insert.
  destruct (decide (key = key')) as [->|Hne]; [|apply Hd].
  intros [= <-]. apply Qc_add_pos; [|done].
  destruct (d !! key') as [x|] eqn:Hx; simpl; [|done].
  apply Qclt_le_weak. by apply (Hd key').
Qed.

Lemma all_positive_add_pairs (word : token) (l : list (nat * token)) d :
  all_positive d ->
  all_positive (foldl (fun d '(i, context_word) =>
                         add_weight d (word, context_word) (inv_distance i))
                  d l).
Proof.
  revert d. induction l as [|[i c] l IH]; intros d Hd; simpl; [done|].
  apply IH, all_positive_add_weight; [apply inv_distance_pos|done].
Qed.

Lemma all_positive_scan_window d w :
  all_positive d -> all_positive (scan_window d w).
Proof.
  destruct w as [[l word] rt]. intros Hd. unfold scan_window, add_context.
  by do 2 apply all_positive_add_pairs.
Qed.

Lemma all_positive_scan_from L R corpus wc d :
  all_positive d -> all_positive (scan_from L R (wc, d) corpus).2.
Proof.
  unfold scan_from. revert wc d.
  induction corpus as [|r corpus IH]; intros wc d Hd; simpl; [done|].
  unfold scan_region at 2. simpl. apply IH.
  generalize (_context_windows r L R). intros ws. revert d Hd.
  induction ws as [|w ws IHw]; intros d Hd; simpl; [done|].
  by apply IHw, all_positive_scan_window.
Qed.

End Positive.

(** X3. Every weight in the co-occurrence map of a scan is strictly
    positive: entries are created by adding [1 / (i + 1)] and only ever
    grow. *)
Theorem scan_weights_positive (L R : Z) (corpus : list region)
    (key : token * token) (w : Qc) :
  (scan_corpus L R corpus).2 !! key = Some w -> (0 < w)%Qc.
Proof.
  apply (all_positive_scan_from L R corpus [] ∅).
  intros k x Hk. by rewrite lookup_empty in Hk.
Qed.

Lemma scan_weights_positive_witness : (0 < Q2Qc (1 # 2))%Qc.
Proof.
  apply (scan_weights_positive 0 2 [["x"; "y"; "z"]]%string
           ("x", "z")%string (Q2Qc (1 # 2))).
  vm_compute. reflexivity.
Defined.

Section KeyOrigin.

Implicit Types d : gmap (token * token) Qc.

Lemma add_pairs_key_inv (word : token) (l : list (nat * token)) d (a b : token) :
  is_Some (foldl (fun d '(i, context_word) =>
                    add_weight d (word, context_word) (inv_distance i))
             d l !! (a, b)) ->
  is_Some (d !! (a, b)) \/ (a = word /\ b ∈ l.*2).
Proof.
  revert d. induction l as [|[i c] l IH]; intros d; simpl; [by left|].
  intros [H|[-> H]]%IH.
  - unfold add_weight in H. rewrite lookup_insert in H.
    destruct (decide ((word, c) = (a, b))) as [[= -> ->]|_]; [|by left].
    right. split; [done|left].
  - right. split; [done|by right].
Qed.

Lemma enumerate_snd {A : Type} (l : list A) : (Py.enumerate l).*2 = l.
Proof.
  unfold Py.enumerate. generalize (fun i : nat => i). intros g.
  change (fun (i : nat) (x : A) => (i, x))
    with (fun (i : nat) (x : A) => ((fun j : nat => j) i, x)).
  generalize (fun j : nat => j). clear g. intros g. revert g.
  induction l as [|x l IH]; intros g; simpl; [done|].
  f_equal. apply (IH (g ∘ S)).
Qed.

Lemma add_context_key_inv word d (context : region) (a b : token) :
  is_Some (add_context word d context !! (a, b)) ->
  is_Some (d !! (a, b)) \/ (a = word /\ b ∈ context).
Proof.
  unfold add_context. intros H%add_pairs_key_inv.
  by rewrite enumerate_snd in H.
Qed.

Lemma scan_window_key_inv d (l : region) word (rt : region) (a b : token) :
  is_Some (scan_window d (l, word, rt) !! (a, b)) ->
  is_Some (d !! (a, b)) \/ (a = word /\ b ∈ l ++ rt).
Proof.
  unfold scan_window.
  intros [[H|[-> H]]%add_context_key_inv|[-> H]]%add_context_key_inv.
  - by left.
  - right. split; [done|]. apply elem_of_app. left. by apply elem_of_reverse.
  - right. split; [done|]. apply elem_of_app. by right.
Qed.

Lemma scan_windows_key_inv d (ws : list (region * token * region)) (a b : token) :
  is_Some (foldl scan_window d ws !! (a, b)) ->
  is_Some (d !! (a, b))
  \/ exists (l rt : region), (l, a, rt) ∈ ws /\ b ∈ l ++ rt.
Proof.
  revert d. induction ws as [|[[l w] rt] ws IH]; intros d; simpl; [by left|].
  intros [[H|[-> H]]%scan_window_key_inv|(l' & rt' & Hin & Hb)]%IH.
  - by left.
  - right. exists l, rt. split; [left|done].
  - right. exists l', rt'. split; [by right|done].
Qed.

Lemma scan_from_key_inv L R corpus wc d (a b : token) :
  is_Some ((scan_from L R (wc, d) corpus).2 !! (a, b)) ->
  is_Some (d !! (a, b)) \/ co_occur L R corpus a b.
Proof.
  unfold scan_from. revert wc d.
  induction corpus as [|r corpus IH]; intros wc d; simpl; [by left|].
  unfold scan_region at 2. simpl.
  intros [[H|(l & rt & Hin & Hb)]%scan_windows_key_inv
         |(r' & i & l & rt & Hr & Hw & Hb)]%IH.
  - by left.
  - right. apply list_elem_of_lookup in Hin as [i Hi].
    exists r, i, l, rt. split; [left|done].
  - right. exists r', i, l, rt. split; [by right|done].
Qed.

(** The keys of the map are the pairs that stand together in a window. *)
Lemma scan_corpus_keys L R corpus (a b : token) :
  is_Some ((scan_corpus L R corpus).2 !! (a, b)) <-> co_occur L R corpus a b.
Proof.
  split.
  - intros [H|H]%scan_from_key_inv; [|done].
    rewrite lookup_empty in H. by destruct H.
  - intros (r & i & l & rt & Hr & Hw & Hb).
    by eapply scan_corpus_key.
Qed.

End KeyOrigin.

(** X4. The co-occurrence map of a scan has a key [(a, b)] exactly when [b]
    stands in the left or right context of an occurrence of [a] in some
    region of the corpus: nothing else is ever entered, and nothing that
    co-occurs is left out. *)
Theorem scan_keys_are_cooccurrences (L R : Z) (corpus : list region)
    (a b : token) :
  is_Some ((scan_corpus L R corpus).2 !! (a, b)) <-> co_occur L R corpus a b.
Proof. apply scan_corpus_keys. Qed.

(** ** Word counts *)

Section WordCounts.

Implicit Types c : list (token * nat).

Lemma scan_from_fst L R corpus c d :
  (scan_from L R (c, d) corpus).1 = foldl counter_incr c (concat corpus).
Proof.
  unfold scan_from. revert c d.
  induction corpus as [|r corpus IH]; intros c d; simpl; [done|].
  unfold scan_region at 2. simpl. rewrite IH. unfold counter_update.
  by rewrite foldl_app.
Qed.

Lemma counter_keys_first_occurrences (l : list token) :
  (foldl counter_incr [] l).*1 = first_occurrences l.
Proof.
  unfold first_occurrences.
  induction l as [|w l IH] using rev_ind; [done|].
  rewrite foldl_app. simpl. rewrite counter_incr_keys, IH.
  rewrite reverse_snoc. cbn [remove_dups].
  destruct (decide (w ∈ reverse (remove_dups (reverse l)))) as [Hw|Hw];
    rewrite elem_of_reverse, elem_of_remove_dups in Hw;
    destruct (decide_rel elem_of w (reverse l)) as [Hw'|Hw']; try done.
  by rewrite reverse_cons.
Qed.

Lemma counter_get_foldl c (l : list token) w :
  counter_get (foldl counter_incr c l) w = (counter_get c w + occurrences w l)%nat.
Proof. apply counter_get_update. Qed.

Lemma counter_get_elem c w n :
  NoDup c.*1 -> (w, n) ∈ c -> counter_get c w = n.
Proof.
  induction c as [|[k m] c IH]; intros Hnd Hin; [by apply elem_of_nil in Hin|].
  simpl in *. apply NoDup_cons in Hnd as [Hk Hnd].
  apply elem_of_cons in Hin as [[= -> ->]|Hin].
  - by rewrite decide_True.
  - rewrite decide_False; [by apply IH|].
    intros ->. apply Hk. apply list_elem_of_fmap. by exists (w, n).
Qed.

Lemma occurrences_pos (w : token) (l : list token) :
  w ∈ l <-> (0 < occurrences w l)%nat.
Proof.
  unfold occurrences. split.
  - intros Hw.
    assert (Hf : w ∈ filter (fun t => t = w) l)
      by (by apply list_elem_of_filter).
    destruct (filter (fun t => t = w) l); [by apply elem_of_nil in Hf|].
    simpl. lia.
  - intros Hlen.
    destruct (filter (fun t => t = w) l) as [|t f] eqn:Hf; [simpl in Hlen; lia|].
    assert (Ht : t ∈ filter (fun t => t = w) l) by (rewrite Hf; left).
    by apply list_elem_of_filter in Ht as [-> Ht].
Qed.

Lemma first_occurrences_elem (w : token) (l : list token) :
  w ∈ first_occurrences l <-> w ∈ l.
Proof.
  unfold first_occurrences.
  by rewrite elem_of_reverse, elem_of_remove_dups, elem_of_reverse.
Qed.

(** The entries of the word counts of a scan. *)
Lemma scan_corpus_count_entries L R corpus (w : token) (n : nat) :
  (w, n) ∈ (scan_corpus L R corpus).1 <->
  w ∈ concat corpus /\ n = occurrences w (concat corpus).
Proof.
  pose proof (scan_from_nodup L R corpus [] ∅ (NoDup_nil_2)) as Hnd.
  unfold scan_corpus in *. rewrite scan_from_fst in *.
  pose proof (counter_keys_first_occurrences (concat corpus)) as Hkeys.
  split.
  - intros Hin.
    assert (Hw : w ∈ concat corpus).
    { apply first_occurrences_elem. rewrite <- Hkeys.
      apply list_elem_of_fmap. by exists (w, n). }
    split; [done|].
    rewrite <- (counter_get_elem _ w n Hnd Hin).
    by rewrite counter_get_foldl.
  - intros [Hw ->].
    apply first_occurrences_elem in Hw. rewrite <- Hkeys in Hw.
    apply list_elem_of_fmap in Hw as ([w' n] & -> & Hin).
    pose proof (counter_get_foldl [] (concat corpus) w') as Hc.
    simpl in *. rewrite <- Hc.
    by rewrite (counter_get_elem _ w' n Hnd Hin).
Qed.

End WordCounts.

(** X5. The word counts of a scan do not depend on the window sizes: the
    keys are the distinct tokens of the corpus in order of first
    occurrence (the order that breaks ties in the vocabulary), each key
    holds the number of times its token stands in the corpus, which is at
    least 1, and a token that is not in the corpus reads as 0. *)
Theorem scan_word_counts (L R : Z) (corpus : list region) :
  (scan_corpus L R corpus).1.*1 = first_occurrences (concat corpus)
  /\ (forall w : token,
         counter_get (scan_corpus L R corpus).1 w
         = occurrences w (concat corpus))
  /\ (forall (w : token) (n : nat),
         (w, n) ∈ (scan_corpus L R corpus).1 <->
         w ∈ concat corpus /\ n = occurrences w (concat corpus))
  /\ (forall (w : token) (n : nat),
         (w, n) ∈ (scan_corpus L R corpus).1 -> (1 <= n)%nat).
Proof.
  split; [|split; [|split]].
  - unfold scan_corpus. rewrite scan_from_fst.
    apply counter_keys_first_occurrences.
  - intros w. unfold scan_corpus. rewrite scan_from_fst.
    apply (counter_get_foldl [] (concat corpus) w).
  - apply scan_corpus_count_entries.
  - intros w n [Hw ->]%scan_corpus_count_entries.
    apply occurrences_pos in Hw. lia.
Qed.

Lemma scan_word_counts_witness :
  (1 <= 2)%nat.
Proof.
  apply (proj2 (proj2 (proj2
           (scan_word_counts 1 1 [["a"; "b"]; ["b"; "c"]]%string)))
           "b"%string 2%nat).
  apply list_elem_of_In. vm_compute. auto.
Defined.

(** ** When the scan finds nothing *)

Lemma no_cooccurrence_iff (L R : Z) (corpus : list region) :
  0 <= L -> 0 <= R ->
  (forall a b, ~ co_occur L R corpus a b) <->
  (L = 0 /\ R = 0) \/ Forall (fun r : region => (length r <= 1)%nat) corpus.
Proof.
  intros HL HR. split.
  - intros Hno.
    destruct (decide (L = 0 /\ R = 0)) as [?|Hsize]; [by left|right].
    apply Forall_forall. intros r Hr.
    destruct r as [|x [|y r']]; simpl; [lia|lia|]. exfalso.
    destruct (decide (0 < R)) as [HR'|HR'].
    + apply (Hno x y).
      exists (x :: y :: r'), 0%nat, [], (take (Z.to_nat R) (y :: r')).
      split; [done|]. split.
      * by rewrite context_windows_nat by done.
      * destruct (Z.to_nat R) eqn:E; [lia|]. simpl. left.
    + apply (Hno y x).
      exists (x :: y :: r'), 1%nat, [x], (take (Z.to_nat R) r').
      split; [done|]. split.
      * rewrite context_windows_nat by done. simpl.
        destruct (Z.to_nat L) eqn:E; [lia|]. done.
      * left.
  - intros Hcase a b (r & i & l & rt & Hr & Hw & Hb).
    rewrite context_windows_nat in Hw by done.
    rewrite list_lookup_imap in Hw.
    destruct (r !! i) as [w|] eqn:Hi; [|done]. apply lookup_lt_Some in Hi.
    injection Hw as <- <- <-.
    assert (Hlen : length (drop (i - Z.to_nat L) (take i r)
                           ++ take (Z.to_nat R) (drop (S i) r)) = 0%nat).
    { rewrite length_app, length_drop, !length_take, length_drop.
      destruct Hcase as [[-> ->]|Hall]; [simpl; lia|].
      rewrite Forall_forall in Hall. specialize (Hall r Hr). lia. }
    apply nil_length_inv in Hlen. rewrite Hlen in Hb.
    by apply elem_of_nil in Hb.
Qed.

(** X6. For window sizes [>= 0], [fit] raises the empty-corpus error exactly
    when both sizes are 0 or no region has more than one token; so a model
    built with [context_size = 0] can never be fitted, and with a positive
    size a single region of two tokens is enough to get past the check. *)
Theorem fit_empty_corpus_when (self : GloVe) (corpus : list region) :
  0 <= left_context self -> 0 <= right_context self ->
  (fit self corpus).2 = Some (Py.ValueError empty_corpus_message)
  <-> (left_context self = 0 /\ right_context self = 0)
      \/ Forall (fun r : region => (length r <= 1)%nat) corpus.
Proof.
  intros HL HR.
  rewrite fit_empty_iff, map_size_empty_iff, <- no_cooccurrence_iff by done.
  split.
  - intros Hempty a b Hco%scan_corpus_keys.
    rewrite Hempty, lookup_empty in Hco. by destruct Hco.
  - intros Hno. apply map_empty. intros [a b].
    apply eq_None_not_Some. by rewrite scan_corpus_keys.
Qed.

Lemma fit_empty_corpus_when_witness :
  (fit (toy_model 0 10 1) [["a"; "b"; "c"]]%string).2
  = Some (Py.ValueError empty_corpus_message)
  <-> (left_context (toy_model 0 10 1) = 0
       /\ right_context (toy_model 0 10 1) = 0)
      \/ Forall (fun r : region => (length r <= 1)%nat) [["a"; "b"; "c"]]%string.
Proof.
  apply (fit_empty_corpus_when (toy_model 0 10 1) [["a"; "b"; "c"]]%string);
    simpl; lia.
Defined.

(** ** The outcomes of fit *)

Lemma index_words_is_Some (ws : list token) (w : token) :
  is_Some (index_words ws !! w) <-> w ∈ ws.
Proof.
  induction ws as [|x ws IH] using rev_ind.
  - unfold index_words. simpl. rewrite lookup_empty. split.
    + by intros [? ?].
    + by intros ?%elem_of_nil.
  - rewrite index_words_snoc, lookup_insert, elem_of_app, list_elem_of_singleton.
    destruct (decide (x = w)) as [->|Hne].
    + split; [by right|eauto].
    + rewrite IH. split; [by left|]. by intros [?|?].
Qed.

Lemma index_words_bound (ws : list token) (w : token) (i : nat) :
  index_words ws !! w = Some i -> (i < length ws)%nat.
Proof.
  revert i. induction ws as [|x ws IH] using rev_ind; intros i.
  - unfold index_words. simpl. by rewrite lookup_empty.
  - rewrite index_words_snoc, lookup_insert, length_app. simpl.
    destruct (decide (x = w)) as [->|Hne].
    + intros [= <-]. lia.
    + intros Hi%IH. lia.
Qed.

Lemma kept_entry_iff (ws : list token) (d : gmap (token * token) Qc) :
  Exists (fun item => kept (index_words ws) item = true) (map_to_list d)
  <-> has_kept_entry ws d.
Proof.
  rewrite Exists_exists. split.
  - intros ([[a b] count] & Hin%elem_of_map_to_list & Hk).
    unfold kept, contains in Hk. simpl in Hk.
    apply andb_true_iff in Hk as [Ha Hb].
    apply bool_decide_eq_true in Ha, Hb.
    exists a, b, count. by rewrite <- !index_words_is_Some.
  - intros (a & b & count & Hd & Ha & Hb).
    exists ((a, b), count). split; [by apply elem_of_map_to_list|].
    unfold kept, contains. simpl.
    by rewrite !bool_decide_eq_true_2 by (by apply index_words_is_Some).
Qed.

(** The three ways a call of [fit] ends. *)
Lemma fit_outcome_cases (self : GloVe) (corpus : list region) :
  let d := (scan_corpus (left_context self) (right_context self) corpus).2 in
  let ws := select_words (vocab_size self) (min_occurrances self)
              (scan_corpus (left_context self) (right_context self) corpus).1 in
  (d = ∅ /\ fit self corpus = (self, Some (Py.ValueError empty_corpus_message)))
  \/ (d <> ∅ /\ has_kept_entry ws d
      /\ fit self corpus
         = (set_vocabulary self ws (index_words ws), Some Py.KeyError))
  \/ (d <> ∅ /\ ~ has_kept_entry ws d
      /\ fit self corpus
         = (set_coocurrence_matrix
              (set_vocabulary self ws (index_words ws)) ∅, None)).
Proof.
  intros d ws. subst d ws. unfold fit.
  destruct (scan_corpus _ _ corpus) as [wc d]. simpl.
  destruct (decide (size d = 0%nat)) as [Hz|Hnz].
  - left. split; [by apply map_size_empty_iff|done].
  - right. rewrite map_size_empty_iff in Hnz.
    destruct (build_matrix_cases
                (index_words (select_words (vocab_size self)
                                (min_occurrances self) wc)) d)
      as [[Hex ->]|[Hall ->]].
    + left. split; [done|]. split; [by apply kept_entry_iff|done].
    + right. split; [done|]. split; [|done].
      intros Hex%kept_entry_iff. apply Exists_exists in Hex as (x & Hx & Hk).
      rewrite Forall_forall in Hall. specialize (Hall x Hx). congruence.
Qed.

(** X7. A call of [fit] that gets past the empty-corpus check raises
    [KeyError] exactly when some co-occurrence entry has both its words in
    the vocabulary, and returns normally exactly when no entry has; so a
    call that returns normally always stores the empty matrix, and [fit]
    never stores a matrix with an entry. *)
Theorem fit_outcome (self : GloVe) (corpus : list region) :
  let d := (scan_corpus (left_context self) (right_context self) corpus).2 in
  let ws := select_words (vocab_size self) (min_occurrances self)
              (scan_corpus (left_context self) (right_context self) corpus).1 in
  ((fit self corpus).2 = Some Py.KeyError <-> d <> ∅ /\ has_kept_entry ws d)
  /\ ((fit self corpus).2 = None <-> d <> ∅ /\ ~ has_kept_entry ws d)
  /\ ((fit self corpus).2 = None ->
      coocurrence_matrix (fit self corpus).1 = Some ∅)
  /\ (forall m, coocurrence_matrix (fit self corpus).1 = Some m ->
                m = ∅ \/ coocurrence_matrix self = Some m).
Proof.
  intros d ws.
  destruct (fit_outcome_cases self corpus)
    as [[Hd Hfit]|[(Hd & Hk & Hfit)|(Hd & Hk & Hfit)]];
    fold d ws in Hd, Hfit; try fold d ws in Hk; rewrite Hfit; simpl.
  - split; [split; [done|by intros [? _]]|].
    split; [split; [done|by intros [? _]]|].
    split; [done|]. intros m Hm. by right.
  - split; [done|]. split; [split; [done|by intros [_ ?]]|].
    split; [done|]. intros m Hm. by right.
  - split; [split; [done|by intros [_ ?]]|]. split; [done|].
    split; [done|]. intros m [= <-]. by left.
Qed.

(** X8. What [fit] leaves alone: in every outcome the configuration and the
    parameter tables are unchanged; and when it raises [KeyError] the new
    word list and id map are already stored while the co-occurrence matrix
    is still the one from before the call, so the object is left with a
    vocabulary and a matrix that do not belong together. *)
Theorem fit_frame (self : GloVe) (corpus : list region) :
  let self' := (fit self corpus).1 in
  let ws := select_words (vocab_size self) (min_occurrances self)
              (scan_corpus (left_context self) (right_context self) corpus).1 in
  (embedding_size self' = embedding_size self
   /\ left_context self' = left_context self
   /\ right_context self' = right_context self
   /\ vocab_size self' = vocab_size self
   /\ min_occurrances self' = min_occurrances self
   /\ alpha self' = alpha self
   /\ x_max self' = x_max self
   /\ focal_embeddings self' = focal_embeddings self
   /\ context_embeddings self' = context_embeddings self
   /\ focal_biases self' = focal_biases self
   /\ context_biases self' = context_biases self)
  /\ ((fit self corpus).2 = Some Py.KeyError ->
      words self' = Some ws
      /\ word_to_id self' = Some (index_words ws)
      /\ coocurrence_matrix self' = coocurrence_matrix self).
Proof.
  intros self' ws. subst self'.
  destruct (fit_outcome_cases self corpus)
    as [[Hd Hfit]|[(Hd & Hk & Hfit)|(Hd & Hk & Hfit)]];
    rewrite Hfit; simpl; split; done.
Qed.

(** Two objects with the same window sizes and vocabulary settings end a
    call of [fit] on the same corpus in the same way, with the same
    vocabulary. *)
Lemma fit_same_configuration (self1 self2 : GloVe) (corpus : list region) :
  left_context self1 = left_context self2 ->
  right_context self1 = right_context self2 ->
  vocab_size self1 = vocab_size self2 ->
  min_occurrances self1 = min_occurrances self2 ->
  (fit self1 corpus).2 = (fit self2 corpus).2
  /\ ((fit self2 corpus).2 <> Some (Py.ValueError empty_corpus_message) ->
      words (fit self1 corpus).1 = words (fit self2 corpus).1
      /\ word_to_id (fit self1 corpus).1 = word_to_id (fit self2 corpus).1)
  /\ ((fit self2 corpus).2 = None ->
      coocurrence_matrix (fit self1 corpus).1
      = coocurrence_matrix (fit self2 corpus).1).
Proof.
  intros HL HR Hv Hm. unfold fit. rewrite HL, HR, Hv, Hm.
  destruct (scan_corpus _ _ corpus) as [wc d].
  destruct (decide (size d = 0%nat)); [done|].
  by destruct (build_matrix _ d).
Qed.

(** X9. [fit] keeps nothing from one call to the next: after any earlier
    call, a call on a corpus ends as it would on the object before that
    earlier call, with the same vocabulary and, when it returns normally,
    the same matrix. The counts of the earlier corpus are not carried
    over. *)
Theorem fit_again (self : GloVe) (corpus1 corpus2 : list region) :
  (fit (fit self corpus1).1 corpus2).2 = (fit self corpus2).2
  /\ ((fit self corpus2).2 <> Some (Py.ValueError empty_corpus_message) ->
      words (fit (fit self corpus1).1 corpus2).1
      = words (fit self corpus2).1
      /\ word_to_id (fit (fit self corpus1).1 corpus2).1
         = word_to_id (fit self corpus2).1)
  /\ ((fit self corpus2).2 = None ->
      coocurrence_matrix (fit (fit self corpus1).1 corpus2).1
      = coocurrence_matrix (fit self corpus2).1).
Proof.
  apply fit_same_configuration;
    destruct (fit_outcome_cases self corpus1)
      as [[_ ->]|[(_ & _ & ->)|(_ & _ & ->)]]; done.
Qed.

Lemma fit_again_witness :
  words (fit (fit (toy_model 1 10 1) [["c"; "d"]]%string).1
           [["a"; "b"]]%string).1
  = words (fit (toy_model 1 10 1) [["a"; "b"]]%string).1
  /\ word_to_id (fit (fit (toy_model 1 10 1) [["c"; "d"]]%string).1
                   [["a"; "b"]]%string).1
     = word_to_id (fit (toy_model 1 10 1) [["a"; "b"]]%string).1.
Proof.
  apply (proj1 (proj2 (fit_again (toy_model 1 10 1)
                         [["c"; "d"]]%string [["a"; "b"]]%string))).
  vm_compute. discriminate.
Defined.

(** ** Vocabulary and the matrix comprehension together *)

Lemma window_elem (r : region) (s e : Z) (b : token) :
  b ∈ _window r s e -> b ∈ r.
Proof.
  intros Hb. unfold _window in Hb.
  destruct (slice_infix r (Z.max s 0)
              (Z.min e (Z.of_nat (length r) + 1) + 1)) as (pre & post & Hr).
  rewrite Hr. rewrite !elem_of_app. auto.
Qed.

(** The two words of a co-occurring pair are tokens of the corpus. *)
Lemma co_occur_tokens (L R : Z) (corpus : list region) (a b : token) :
  co_occur L R corpus a b -> a ∈ concat corpus /\ b ∈ concat corpus.
Proof.
  intros (r & i & l & rt & Hr & Hw & Hb).
  unfold _context_windows in Hw. rewrite list_lookup_imap in Hw.
  destruct (r !! i) as [w|] eqn:Hi; [|done].
  injection Hw as <- <- <-.
  assert (Hsub : forall t, t ∈ r -> t ∈ concat corpus).
  { intros t Ht. apply list_elem_of_In, in_concat.
    exists r. by rewrite <- !list_elem_of_In. }
  split; apply Hsub.
  - apply list_elem_of_lookup. eauto.
  - apply elem_of_app in Hb as [Hb|Hb]; by eapply window_elem.
Qed.

(** With a vocabulary that is neither capped nor filtered, every token of
    the corpus is in the vocabulary. *)
Lemma select_words_all (vs mo : Z) (corpus : list region) (L R : Z) (w : token) :
  Z.of_nat (length (first_occurrences (concat corpus))) <= vs ->
  mo <= 1 ->
  w ∈ concat corpus ->
  w ∈ select_words vs mo (scan_corpus L R corpus).1.
Proof.
  intros Hvs Hmo Hw.
  assert (Hin : (w, occurrences w (concat corpus)) ∈ (scan_corpus L R corpus).1)
    by (by apply scan_corpus_count_entries).
  assert (Hlen : length (scan_corpus L R corpus).1
                 = length (first_occurrences (concat corpus))).
  { unfold scan_corpus. rewrite scan_from_fst.
    rewrite <- counter_keys_first_occurrences. by rewrite length_fmap. }
  unfold select_words, most_common.
  apply list_elem_of_fmap. exists (w, occurrences w (concat corpus)).
  split; [done|]. apply list_elem_of_filter. split.
  - simpl. apply occurrences_pos in Hw. lia.
  - rewrite take_ge.
    + by rewrite sorted_desc_perm.
    + rewrite sorted_desc_perm. lia.
Qed.

(** X10. When the vocabulary holds every word of the corpus (the cap
    [vocab_size] is at least the number of distinct tokens and
    [min_occurrances <= 1], as with the default arguments on a corpus of at
    most 100000 distinct words), [fit] never returns normally: it raises
    the empty-corpus error when the scan finds no pair, and [KeyError] as
    soon as it finds one. *)
Theorem fit_full_vocabulary_raises (self : GloVe) (corpus : list region) :
  Z.of_nat (length (first_occurrences (concat corpus))) <= vocab_size self ->
  min_occurrances self <= 1 ->
  (fit self corpus).2 = Some (Py.ValueError empty_corpus_message)
  \/ (fit self corpus).2 = Some Py.KeyError.
Proof.
  intros Hvs Hmo.
  destruct (fit_outcome_cases self corpus)
    as [[_ ->]|[(_ & _ & ->)|(Hd & Hk & _)]]; [by left|by right|].
  exfalso. apply Hk.
  apply map_choose in Hd as ([a b] & count & Hd).
  assert (Hco : co_occur (left_context self) (right_context self) corpus a b)
    by (apply scan_corpus_keys; eauto).
  apply co_occur_tokens in Hco as [Ha Hb].
  exists a, b, count. split; [done|].
  split; by apply select_words_all.
Qed.

Lemma fit_full_vocabulary_raises_witness :
  (fit (toy_model 2 default_vocab_size default_min_occurrances)
     [["the"; "cat"; "sat"]; ["the"; "dog"]]%string).2
  = Some (Py.ValueError empty_corpus_message)
  \/ (fit (toy_model 2 default_vocab_size default_min_occurrances)
        [["the"; "cat"; "sat"]; ["the"; "dog"]]%string).2
     = Some Py.KeyError.
Proof.
  apply (fit_full_vocabulary_raises
           (toy_model 2 default_vocab_size default_min_occurrances)
           [["the"; "cat"; "sat"]; ["the"; "dog"]]%string);
    vm_compute; discriminate.
Defined.

(** X11. The vocabulary never has more than [vocab_size] words nor more
    words than the word counts have keys, and every id in [word_to_id] is
    the index of a word of the list, hence below [vocab_size]: ids are rows
    of embedding tables made with [vocab_size] rows. *)
Theorem vocabulary_ids_bounded (word_counts : list (token * nat))
    (vocab_size min_occurrances : Z) :
  let ws := select_words vocab_size min_occurrances word_counts in
  (length ws <= Z.to_nat vocab_size)%nat
  /\ (length ws <= length word_counts)%nat
  /\ forall (w : token) (i : nat),
      index_words ws !! w = Some i ->
      (i < length ws)%nat /\ Z.of_nat i < vocab_size.
Proof.
  intros ws.
  assert (Hlen : (length ws <= Z.to_nat vocab_size `min` length word_counts)%nat).
  { unfold ws, select_words, most_common. rewrite length_fmap.
    etrans; [apply length_filter|].
    rewrite length_take, sorted_desc_perm. done. }
  split; [lia|]. split; [lia|].
  intros w i Hi%index_words_bound. lia.
Qed.

Lemma vocabulary_ids_bounded_witness :
  (0 < length (select_words 2 1 [("a", 5); ("b", 3); ("c", 1)]%string%nat))%nat
  /\ Z.of_nat 0 < 2.
Proof.
  apply (proj2 (proj2 (vocabulary_ids_bounded
                         [("a", 5); ("b", 3); ("c", 1)]%string%nat 2 1))
           "a"%string 0%nat).
  vm_compute. reflexivity.
Defined.

(** Witnesses of the inner implications of the two theorems above. *)
Lemma fit_outcome_witness :
  coocurrence_matrix (fit (toy_model 1 1 1) [["a"; "b"]]%string).1 = Some ∅.
Proof.
  apply (proj1 (proj2 (proj2
           (fit_outcome (toy_model 1 1 1) [["a"; "b"]]%string)))).
  vm_compute. reflexivity.
Defined.

Lemma fit_frame_witness :
  words (fit (toy_model 1 10 1) [["a"; "b"]]%string).1
  = Some (select_words 10 1 (scan_corpus 1 1 [["a"; "b"]]%string).1)
  /\ word_to_id (fit (toy_model 1 10 1) [["a"; "b"]]%string).1
     = Some (index_words
               (select_words 10 1 (scan_corpus 1 1 [["a"; "b"]]%string).1))
  /\ coocurrence_matrix (fit (toy_model 1 10 1) [["a"; "b"]]%string).1
     = coocurrence_matrix (toy_model 1 10 1).
Proof.
  apply (proj2 (fit_frame (toy_model 1 10 1) [["a"; "b"]]%string)).
  vm_compute. reflexivity.
Defined.

(** ** Errors of forward *)

Open Scope R_scope.

Lemma lookup_batch_Ok_inv {A : Type} (table : list A) (ids : list nat) xs :
  lookup_batch table ids = Py.Ok xs ->
  Forall (fun i => (i < length table)%nat) ids /\ length xs = length ids.
Proof.
  revert xs. induction ids as [|i ids IH]; intros xs; simpl.
  - intros [= <-]. by split.
  - destruct (table !! i) as [x|] eqn:Hi; [|done].
    destruct (lookup_batch table ids) as [xs'|] eqn:Hl; simpl; [|done].
    intros [= <-]. destruct (IH xs' eq_refl) as [Hall Hlen].
    split; [|simpl; lia]. constructor; [by eapply lookup_lt_Some|done].
Qed.

Lemma lookup_batch_cases {A : Type} (table : list A) (ids : list nat) :
  (Forall (fun i => (i < length table)%nat) ids
   /\ exists xs, lookup_batch table ids = Py.Ok xs /\ length xs = length ids)
  \/ (~ Forall (fun i => (i < length table)%nat) ids
      /\ lookup_batch table ids = Py.Raise Py.IndexError).
Proof.
  destruct (lookup_batch table ids) as [xs|e] eqn:Hl.
  - left. apply lookup_batch_Ok_inv in Hl as [Hall Hlen]. eauto.
  - right. pose proof (lookup_batch_raises _ _ _ Hl) as ->. split; [|done].
    intros Hall. destruct table as [|d table].
    + destruct ids as [|i ids]; [done|]. inversion Hall; subst. simpl in *. lia.
    + by rewrite (lookup_batch_ok d) in Hl.
Qed.

Lemma broadcast_cases {A B C : Type} (f : A -> B -> C)
    (xs : list A) (ys : list B) :
  (compatible (length xs) (length ys)
   /\ exists zs, broadcast f xs ys = Py.Ok zs
                 /\ length zs = broadcast_length (length xs) (length ys))
  \/ (~ compatible (length xs) (length ys)
      /\ broadcast f xs ys = Py.Raise Py.RuntimeError).
Proof.
  unfold broadcast, compatible, broadcast_length.
  destruct (decide (length xs = length ys)) as [Heq|Hne].
  - left. split; [by left|]. eexists. split; [done|].
    rewrite length_zip_with. case_decide; lia.
  - destruct xs as [|x [|x' xs]], ys as [|y [|y' ys]]; simpl in *;
      try lia;
      try lia;
      try (left; split; [lia|]; eexists; split; [done|];
           simpl; repeat case_decide; lia);
      try (right; split; [lia|done]);
      (left; split; [lia|]; eexists; split; [done|];
       simpl; do 2 f_equal; apply length_fmap).
Qed.

Lemma in_range_split (self : GloVe) (fs cs : list nat) :
  focal_in_range self fs /\ context_in_range self cs <->
  Forall (fun i => (i < length (focal_embeddings self))%nat) fs
  /\ Forall (fun i => (i < length (context_embeddings self))%nat) cs
  /\ Forall (fun i => (i < length (focal_biases self))%nat) fs
  /\ Forall (fun i => (i < length (context_biases self))%nat) cs.
Proof.
  unfold focal_in_range, context_in_range.
  rewrite !Forall_forall. split.
  - intros [Hf Hc]. repeat split; intros i Hi;
      try (by destruct (Hf i Hi)); by destruct (Hc i Hi).
  - intros (H1 & H2 & H3 & H4). split; intros i Hi; split; auto.
Qed.

(** X12. [forward] raises [IndexError] exactly when some id of the batch is
    not a row of its embedding table or bias vector; the ids are looked up
    before anything is computed, so this error comes before any shape
    error. *)
Theorem forward_index_error (self : GloVe) (fs cs : list nat) (xs : list R) :
  forward self fs cs xs = Py.Raise Py.IndexError
  <-> ~ (focal_in_range self fs /\ context_in_range self cs).
Proof.
  rewrite in_range_split. unfold forward.
  destruct (lookup_batch_cases (focal_embeddings self) fs)
    as [[H1 (fe & -> & _)]|[H1 ->]]; [|split; [tauto|done]].
  destruct (lookup_batch_cases (context_embeddings self) cs)
    as [[H2 (ce & -> & _)]|[H2 ->]]; [|split; [tauto|done]].
  destruct (lookup_batch_cases (focal_biases self) fs)
    as [[H3 (fb & -> & _)]|[H3 ->]]; [|split; [tauto|done]].
  destruct (lookup_batch_cases (context_biases self) cs)
    as [[H4 (cb & -> & _)]|[H4 ->]]; [|split; [tauto|done]].
  cbn [mbind Py.result_bind]. split; [|tauto].
  intros Hraise. exfalso.
  repeat
    (match type of Hraise with
     | context [broadcast ?f ?a ?b] =>
         let H := fresh "H" in
         destruct (broadcast f a b) eqn:H;
         [|apply broadcast_raises in H; subst; done]
     end; cbn [mbind Py.result_bind] in Hraise).
  done.
Qed.

Lemma forward_lengths_None (n m k : nat) :
  forward_lengths n m k = None <->
  ~ compatible n m \/ ~ compatible n k \/ ~ compatible m k.
Proof.
  unfold forward_lengths, broadcast_lengths, broadcast_length, compatible.
  destruct (decide (n = 1%nat)) as [Hn|Hn], (decide (m = 1%nat)) as [Hm|Hm],
    (decide (k = 1%nat)) as [Hk|Hk], (decide (n = m)) as [Hnm|Hnm],
    (decide (n = k)) as [Hnk|Hnk], (decide (m = k)) as [Hmk|Hmk]; try lia;
    simpl; repeat (case_decide; simpl; try lia);
    (split; [try done; lia|try done; lia]).
Qed.

Lemma broadcast_status {A B C : Type} (f : A -> B -> C)
    (xs : list A) (ys : list B) :
  match broadcast f xs ys with
  | Py.Ok zs => broadcast_lengths (length xs) (length ys) = Some (length zs)
  | Py.Raise e =>
      e = Py.RuntimeError /\ broadcast_lengths (length xs) (length ys) = None
  end.
Proof.
  unfold broadcast_lengths.
  destruct (broadcast_cases f xs ys) as [[Hc (zs & -> & Hlen)]|[Hc ->]].
  - rewrite decide_True by done. by rewrite Hlen.
  - by rewrite decide_False.
Qed.

Lemma forward_status (self : GloVe) (fs cs : list nat) (xs : list R) :
  focal_in_range self fs -> context_in_range self cs ->
  match forward self fs cs xs with
  | Py.Ok _ => is_Some (forward_lengths (length fs) (length cs) (length xs))
  | Py.Raise e =>
      e = Py.RuntimeError
      /\ forward_lengths (length fs) (length cs) (length xs) = None
  end.
Proof.
  intros Hf Hc.
  destruct (proj1 (in_range_split self fs cs) (conj Hf Hc))
    as (H1 & H2 & H3 & H4).
  unfold forward, forward_lengths.
  destruct (lookup_batch_cases (focal_embeddings self) fs)
    as [[_ (fe & -> & Lfe)]|[? _]]; [|done].
  destruct (lookup_batch_cases (context_embeddings self) cs)
    as [[_ (ce & -> & Lce)]|[? _]]; [|done].
  destruct (lookup_batch_cases (focal_biases self) fs)
    as [[_ (fb & -> & Lfb)]|[? _]]; [|done].
  destruct (lookup_batch_cases (context_biases self) cs)
    as [[_ (cb & -> & Lcb)]|[? _]]; [|done].
  cbn [mbind Py.result_bind].
  pose proof (broadcast_status row_dot fe ce) as S1.
  destruct (broadcast row_dot fe ce) as [p|e]; cbn [mbind Py.result_bind];
    rewrite Lfe, Lce in S1; [rewrite S1|by destruct S1 as [-> ->]].
  cbn [mbind option_bind].
  pose proof (broadcast_status Rplus p fb) as S2.
  destruct (broadcast Rplus p fb) as [s1|e]; cbn [mbind Py.result_bind];
    rewrite Lfb in S2; [rewrite S2|by destruct S2 as [-> ->]].
  cbn [mbind option_bind].
  pose proof (broadcast_status Rplus s1 cb) as S3.
  destruct (broadcast Rplus s1 cb) as [s2|e]; cbn [mbind Py.result_bind];
    rewrite Lcb in S3; [rewrite S3|by destruct S3 as [-> ->]].
  cbn [mbind option_bind].
  pose proof (broadcast_status Rplus s2 (ln <$> xs)) as S4.
  destruct (broadcast Rplus s2 (ln <$> xs)) as [s3|e];
    cbn [mbind Py.result_bind];
    rewrite length_fmap in S4; [rewrite S4|by destruct S4 as [-> ->]].
  cbn [mbind option_bind].
  pose proof (broadcast_status Rmult (weight_factor self <$> xs)
                ((fun x => x ^ 2) <$> s3)) as S5.
  destruct (broadcast Rmult (weight_factor self <$> xs)
              ((fun x => x ^ 2) <$> s3)) as [s4|e];
    cbn [mbind Py.result_bind];
    rewrite !length_fmap in S5; [rewrite S5|by destruct S5 as [-> ->]].
  cbn [mret Py.result_ret]. eauto.
Qed.

(** X13. With every id in range, [forward] raises the shape error exactly
    when two of the three batches have different lengths and neither of
    the two has length 1; otherwise it returns a value. *)
Theorem forward_shape_error (self : GloVe) (fs cs : list nat) (xs : list R) :
  focal_in_range self fs -> context_in_range self cs ->
  (forward self fs cs xs = Py.Raise Py.RuntimeError
   <-> ~ compatible (length fs) (length cs)
       \/ ~ compatible (length fs) (length xs)
       \/ ~ compatible (length cs) (length xs))
  /\ (compatible (length fs) (length cs)
      /\ compatible (length fs) (length xs)
      /\ compatible (length cs) (length xs) ->
      exists v, forward self fs cs xs = Py.Ok v).
Proof.
  intros Hf Hc. pose proof (forward_status self fs cs xs Hf Hc) as Hs.
  rewrite <- forward_lengths_None.
  destruct (forward self fs cs xs) as [v|e].
  - destruct Hs as [len Hlen]. split.
    + split; [done|]. intros Hnone. by rewrite Hnone in Hlen.
    + eauto.
  - destruct Hs as [-> Hnone]. split; [done|].
    intros (C1 & C2 & C3). apply forward_lengths_None in Hnone. tauto.
Qed.

Lemma forward_shape_error_witness :
  (forward (toy_model 1 10 1) [0; 1]%nat [1; 2; 0]%nat [1; 2]
   = Py.Raise Py.RuntimeError
   <-> ~ compatible 2 3 \/ ~ compatible 2 2 \/ ~ compatible 3 2)
  /\ (compatible 2 3 /\ compatible 2 2 /\ compatible 3 2 ->
      exists v,
        forward (toy_model 1 10 1) [0; 1]%nat [1; 2; 0]%nat [1; 2] = Py.Ok v).
Proof.
  apply (forward_shape_error (toy_model 1 10 1) [0; 1]%nat [1; 2; 0]%nat [1; 2]);
    repeat constructor; simpl; lia.
Defined.

Close Scope R_scope.

(** ** Values of the loss *)

Open Scope R_scope.

Lemma clamp_one_range (w : R) : 0 < w -> 0 < clamp_one w <= 1.
Proof. intros Hw. unfold clamp_one. destruct (Rlt_dec 1 w); lra. Qed.

Lemma Rpower_pos (x a : R) : 0 < Rpower x a.
Proof. unfold Rpower. apply exp_pos. Qed.

Lemma weight_factor_range (self : GloVe) (count : R) :
  0 < weight_factor self count <= 1.
Proof. unfold weight_factor. apply clamp_one_range, Rpower_pos. Qed.

Lemma sum_list_nonneg (xs : list R) : Forall (fun x => 0 <= x) xs -> 0 <= sum_list xs.
Proof. induction 1 as [|x xs Hx _ IH]; simpl; lra. Qed.

Lemma broadcast_Forall {A B C : Type} (f : A -> B -> C)
    (P : A -> Prop) (Q : B -> Prop) (S : C -> Prop)
    (xs : list A) (ys : list B) (zs : list C) :
  (forall x y, P x -> Q y -> S (f x y)) ->
  Forall P xs -> Forall Q ys ->
  broadcast f xs ys = Py.Ok zs -> Forall S zs.
Proof.
  intros Hf Hx Hy. unfold broadcast.
  destruct (decide (length xs = length ys)) as [_|_].
  - intros [= <-]. clear -Hf Hx Hy. revert ys Hy.
    induction Hx as [|x xs Hx _ IH]; intros ys Hy; [constructor|].
    destruct Hy as [|y ys Hy Hys]; simpl; [constructor|].
    constructor; [by apply Hf|by apply IH].
  - assert (HL : forall x, P x -> Forall S (f x <$> ys)).
    { intros x Px. apply Forall_fmap. eapply Forall_impl; [exact Hy|].
      intros y Qy. by apply Hf. }
    assert (HR : forall y, Q y -> Forall S ((fun x => f x y) <$> xs)).
    { intros y Qy. apply Forall_fmap. eapply Forall_impl; [exact Hx|].
      intros x Px. by apply Hf. }
    destruct xs as [|x [|x' xs]], ys as [|y [|y' ys]]; try done;
      intros [= <-];
      first [ apply (HL x); by inversion Hx
            | apply (HR y); by inversion Hy ].
Qed.

(** X14. For a positive cutoff [x_max] and positive counts (where the
    logarithm and the power are defined), every value [forward] returns is
    non-negative, broadcast batches included: it is a sum of squares, each
    scaled by a weight factor in (0, 1]. *)
Theorem forward_nonneg (self : GloVe) (fs cs : list nat) (xs : list R) (v : R) :
  0 < x_max self -> Forall (fun x => 0 < x) xs ->
  forward self fs cs xs = Py.Ok v -> 0 <= v.
Proof.
  intros _ _. unfold forward.
  destruct (lookup_batch (focal_embeddings self) fs) as [fe|]; [|done].
  destruct (lookup_batch (context_embeddings self) cs) as [ce|]; [|done].
  destruct (lookup_batch (focal_biases self) fs) as [fb|]; [|done].
  destruct (lookup_batch (context_biases self) cs) as [cb|]; [|done].
  cbn [mbind Py.result_bind].
  destruct (broadcast row_dot fe ce) as [p|]; [|done].
  cbn [mbind Py.result_bind].
  destruct (broadcast Rplus p fb) as [s1|]; [|done].
  cbn [mbind Py.result_bind].
  destruct (broadcast Rplus s1 cb) as [s2|]; [|done].
  cbn [mbind Py.result_bind].
  destruct (broadcast Rplus s2 (ln <$> xs)) as [s3|]; [|done].
  cbn [mbind Py.result_bind].
  destruct (broadcast Rmult (weight_factor self <$> xs)
              ((fun x => x ^ 2) <$> s3)) as [s4|] eqn:Hs4; [|done].
  cbn [mbind Py.result_bind mret Py.result_ret]. intros [= <-].
  apply sum_list_nonneg.
  apply (broadcast_Forall Rmult (fun w => 0 < w) (fun d => 0 <= d)
           (fun z => 0 <= z) _ _ _
           (fun w d Hw Hd => Rmult_le_pos w d (Rlt_le _ _ Hw) Hd)) in Hs4;
    [done| |].
  - apply Forall_fmap, Forall_true. intros x. apply weight_factor_range.
  - apply Forall_fmap, Forall_true. intros x. simpl. apply pow2_ge_0.
Qed.

Lemma forward_nonneg_witness :
  0 <= batch_loss (toy_model 1 10 1) [0; 1]%nat [1; 2]%nat [1; 1000].
Proof.
  apply (forward_nonneg (toy_model 1 10 1) [0; 1]%nat [1; 2]%nat [1; 1000]).
  - unfold toy_model, default_x_max. simpl. lra.
  - repeat constructor; lra.
  - apply forward_batch; [reflexivity | reflexivity
      | apply toy_model_in_range | apply toy_model_in_range].
Defined.

Lemma batch_loss_app (self : GloVe) (fs1 fs2 cs1 cs2 : list nat)
    (xs1 xs2 : list R) :
  length fs1 = length cs1 -> length cs1 = length xs1 ->
  batch_loss self (fs1 ++ fs2) (cs1 ++ cs2) (xs1 ++ xs2)
  = batch_loss self fs1 cs1 xs1 + batch_loss self fs2 cs2 xs2.
Proof.
  revert cs1 xs1. induction fs1 as [|f fs1 IH]; intros [|c cs1] [|x xs1] H1 H2;
    try discriminate; simpl.
  - lra.
  - rewrite IH by (simpl in *; lia). lra.
Qed.

(** X15. The loss of a batch is the sum of the losses of its parts: for two
    batches of equal-length inputs with ids in range, [forward] on the
    concatenated inputs returns the sum of what it returns on each (real
    arithmetic; floating-point sums agree up to rounding). *)
Theorem forward_app (self : GloVe) (fs1 fs2 cs1 cs2 : list nat)
    (xs1 xs2 : list R) :
  length fs1 = length cs1 -> length cs1 = length xs1 ->
  length fs2 = length cs2 -> length cs2 = length xs2 ->
  focal_in_range self (fs1 ++ fs2) -> context_in_range self (cs1 ++ cs2) ->
  exists v1 v2,
    forward self fs1 cs1 xs1 = Py.Ok v1
    /\ forward self fs2 cs2 xs2 = Py.Ok v2
    /\ forward self (fs1 ++ fs2) (cs1 ++ cs2) (xs1 ++ xs2) = Py.Ok (v1 + v2).
Proof.
  intros H1 H2 H3 H4 Hf Hc.
  unfold focal_in_range, context_in_range in *.
  apply Forall_app in Hf as [Hf1 Hf2]. apply Forall_app in Hc as [Hc1 Hc2].
  exists (batch_loss self fs1 cs1 xs1), (batch_loss self fs2 cs2 xs2).
  split; [by apply forward_batch|]. split; [by apply forward_batch|].
  rewrite <- batch_loss_app by done.
  apply forward_batch; rewrite ?length_app; try lia.
  - apply Forall_app. by split.
  - apply Forall_app. by split.
Qed.

Lemma forward_app_witness :
  exists v1 v2,
    forward (toy_model 1 10 1) [0]%nat [1]%nat [1] = Py.Ok v1
    /\ forward (toy_model 1 10 1) [1]%nat [2]%nat [1000] = Py.Ok v2
    /\ forward (toy_model 1 10 1) ([0] ++ [1])%nat ([1] ++ [2])%nat
         ([1] ++ [1000]) = Py.Ok (v1 + v2).
Proof.
  apply (forward_app (toy_model 1 10 1) [0]%nat [1]%nat [1]%nat [2]%nat
           [1] [1000]); try reflexivity; apply toy_model_in_range.
Defined.

Lemma Rpower_lt_1 (x a : R) : 0 < x < 1 -> 0 < a -> Rpower x a < 1.
Proof.
  intros [Hx0 Hx1] Ha. unfold Rpower. rewrite <- exp_0.
  apply exp_increasing.
  assert (Hln : ln x < 0) by (rewrite <- ln_1; by apply ln_increasing).
  nra.
Qed.

(** X16. For a positive cutoff and a positive count the weight factor lies
    in (0, 1], whatever the exponent. For a positive exponent it is
    [(count / x_max) ^ alpha], strictly below 1, for a positive count below
    the cutoff, and exactly 1 from the cutoff on; it never decreases when
    the count grows. *)
Theorem weight_factor_regimes (self : GloVe) :
  (0 < x_max self ->
   forall count, 0 < count -> 0 < weight_factor self count <= 1)
  /\ (0 < x_max self -> 0 < alpha self ->
      (forall count,
          0 < count < x_max self ->
          weight_factor self count = Rpower (count / x_max self) (alpha self)
          /\ weight_factor self count < 1)
      /\ (forall count, x_max self <= count -> weight_factor self count = 1)
      /\ (forall count1 count2,
             0 < count1 <= count2 ->
             weight_factor self count1 <= weight_factor self count2)).
Proof.
  split; [intros _ count _; apply weight_factor_range|]. intros Hx Ha.
  assert (Hbelow : forall count, 0 < count < x_max self ->
            Rpower (count / x_max self) (alpha self) < 1).
  { intros count [Hc0 Hc1]. apply Rpower_lt_1; [|done]. split.
    - by apply Rdiv_lt_0_compat.
    - apply (Rmult_lt_reg_r (x_max self)); [done|].
      unfold Rdiv. rewrite Rmult_assoc, Rinv_l by lra. lra. }
  assert (Habove : forall count, x_max self <= count ->
            1 <= Rpower (count / x_max self) (alpha self)).
  { intros count Hc. apply Rpower_ge_1; [|lra].
    apply (Rmult_le_reg_r (x_max self)); [done|].
    unfold Rdiv. rewrite Rmult_assoc, Rinv_l by lra. lra. }
  split; [|split].
  - intros count Hc. specialize (Hbelow count Hc).
    unfold weight_factor, clamp_one.
    destruct (Rlt_dec 1 (Rpower (count / x_max self) (alpha self))); lra.
  - intros count Hc. specialize (Habove count Hc).
    unfold weight_factor, clamp_one.
    destruct (Rlt_dec 1 (Rpower (count / x_max self) (alpha self))); lra.
  - intros c1 c2 [Hc1 Hc12].
    assert (Hmono : Rpower (c1 / x_max self) (alpha self)
                    <= Rpower (c2 / x_max self) (alpha self)).
    { apply Rle_Rpower_l; [lra|]. split.
      - by apply Rdiv_lt_0_compat.
      - unfold Rdiv. apply Rmult_le_compat_r; [|done].
        left. by apply Rinv_0_lt_compat. }
    unfold weight_factor, clamp_one.
    destruct (Rlt_dec 1 (Rpower (c1 / x_max self) (alpha self))),
      (Rlt_dec 1 (Rpower (c2 / x_max self) (alpha self))); lra.
Qed.

Lemma weight_factor_regimes_witness :
  weight_factor (toy_model 1 10 1) 250 = 1.
Proof.
  apply (proj1 (proj2 (proj2 (weight_factor_regimes (toy_model 1 10 1))
                         ltac:(unfold toy_model, default_x_max; simpl; lra)
                         ltac:(unfold toy_model, default_alpha; simpl; lra)))).
  unfold toy_model, default_x_max. simpl. lra.
Defined.

Close Scope R_scope.

(** ** Symmetry of the co-occurrence map *)

Section Sums.

Implicit Types (f g : nat -> token -> Qc) (l : list token).

Lemma sum_imap_cons f x l :
  sum_imap f (x :: l) = (f 0%nat x + sum_imap (fun i => f (S i)) l)%Qc.
Proof. reflexivity. Qed.

Lemma sum_imap_ext f g l :
  (forall i x, l !! i = Some x -> f i x = g i x) ->
  sum_imap f l = sum_imap g l.
Proof.
  revert f g. induction l as [|x l IH]; intros f g Hfg; [done|].
  rewrite !sum_imap_cons. rewrite (Hfg 0%nat x eq_refl). f_equal.
  apply IH. intros i y Hi. by apply (Hfg (S i)).
Qed.

Lemma sum_imap_plus f g l :
  sum_imap (fun i x => (f i x + g i x)%Qc) l
  = (sum_imap f l + sum_imap g l)%Qc.
Proof.
  revert f g. induction l as [|x l IH]; intros f g.
  - unfold sum_imap. simpl. ring.
  - rewrite !sum_imap_cons.
    rewrite (IH (fun i => f (S i)) (fun i => g (S i))). ring.
Qed.

Lemma sum_imap_zero l : sum_imap (fun _ _ => 0%Qc) l = 0%Qc.
Proof.
  induction l as [|x l IH]; [done|]. rewrite sum_imap_cons, IH. ring.
Qed.

Lemma sum_imap_snoc f l x :
  sum_imap f (l ++ [x]) = (sum_imap f l + f (length l) x)%Qc.
Proof.
  revert f. induction l as [|y l IH]; intros f.
  - unfold sum_imap. simpl. ring.
  - simpl. rewrite !sum_imap_cons, IH. ring.
Qed.

Lemma sum_imap_take f l (n : nat) :
  sum_imap f (take n l)
  = sum_imap (fun i x => if decide (i < n)%nat then f i x else 0%Qc) l.
Proof.
  revert f n. induction l as [|x l IH]; intros f n.
  - by rewrite take_nil.
  - destruct n as [|n].
    + simpl. symmetry. etrans; [|apply (sum_imap_zero (x :: l))].
      apply sum_imap_ext. intros i y _.
      by destruct (decide (i < 0)%nat); [lia|].
    + simpl. rewrite !sum_imap_cons, IH.
      rewrite decide_True by lia. f_equal.
      apply sum_imap_ext. intros i y _.
      destruct (decide (i < n)%nat), (decide (S i < S n)%nat); try done; lia.
Qed.

Lemma context_weight_sum l (b : token) :
  context_weight l b
  = sum_imap (fun k c => if decide (c = b) then inv_distance k else 0%Qc) l.
Proof.
  unfold context_weight, Py.enumerate, sum_imap.
  change (fun (i : nat) (x : token) => (i, x))
    with (fun (i : nat) (x : token) => ((fun j : nat => j) i, x)).
  change (fun (k : nat) (c : token) =>
            if decide (c = b) then inv_distance k else 0%Qc)
    with (fun (k : nat) (c : token) =>
            if decide (c = b) then inv_distance ((fun j : nat => j) k)
            else 0%Qc).
  generalize (fun j : nat => j). intros h. revert h.
  induction l as [|x l IH]; intros h; [done|].
  simpl. f_equal. apply (IH (h ∘ S)).
Qed.

Lemma context_weight_snoc l (x b : token) :
  context_weight (l ++ [x]) b
  = (context_weight l b
     + (if decide (x = b) then inv_distance (length l) else 0))%Qc.
Proof. by rewrite !context_weight_sum, sum_imap_snoc. Qed.

Lemma windows_weight_imap (h : nat -> token -> region * token * region)
    l (a b : token) :
  windows_weight (imap h l) a b = sum_imap (fun i x => window_weight a b (h i x)) l.
Proof.
  revert h. induction l as [|x l IH]; intros h; [done|].
  rewrite sum_imap_cons. simpl. f_equal. apply (IH (h ∘ S)).
Qed.

End Sums.

(** Scanning [x :: r] adds, on top of what scanning [r] adds: for the focal
    word [x], the weights of the first [R] tokens of [r]; and for each of
    the first [L] tokens of [r] as focal word, the weight of [x] at its
    distance. *)
Lemma region_weight_cons (L R : Z) (x : token) (r : region) (a b : token) :
  0 <= R ->
  windows_weight (_context_windows (x :: r) L R) a b
  = (windows_weight (_context_windows r L R) a b
     + (if decide (a = x) then context_weight (take (Z.to_nat R) r) b else 0)
     + (if decide (b = x) then context_weight (take (Z.to_nat L) r) a else 0))%Qc.
Proof.
  intros HR. rewrite !context_windows_nat by done.
  rewrite !windows_weight_imap, sum_imap_cons.
  assert (Hstep :
    sum_imap
      (fun i w =>
         window_weight a b
           (drop (S i - Z.to_nat L) (x :: take i r), w,
            take (Z.to_nat R) (drop (S i) r))) r
    = (sum_imap
         (fun i w =>
            window_weight a b
              (drop (i - Z.to_nat L) (take i r), w,
               take (Z.to_nat R) (drop (S i) r))) r
       + sum_imap
           (fun i w =>
              if decide (i < Z.to_nat L)%nat
              then (if decide (b = x)
                    then (if decide (w = a) then inv_distance i else 0)
                    else 0)
              else 0) r)%Qc).
  { rewrite <- sum_imap_plus. apply sum_imap_ext. intros i w Hi.
    apply lookup_lt_Some in Hi. unfold window_weight. simpl.
    destruct (decide (i < Z.to_nat L)%nat) as [Hlt|Hge].
    - replace (S i - Z.to_nat L)%nat with 0%nat by lia.
      replace (i - Z.to_nat L)%nat with 0%nat by lia. simpl.
      rewrite reverse_cons, context_weight_snoc, length_reverse, length_take.
      replace (i `min` length r)%nat with i by lia.
      rewrite drop_0.
      repeat case_decide; subst; try congruence; ring.
    - replace (S i - Z.to_nat L)%nat with (S (i - Z.to_nat L)) by lia.
      simpl. ring. }
  rewrite (sum_imap_ext _
             (fun i w => window_weight a b
                (drop (S i - Z.to_nat L) (x :: take i r), w,
                 take (Z.to_nat R) (drop (S i) r))) r)
    by (intros; reflexivity).
  rewrite Hstep.
  assert (Hx :
    sum_imap
      (fun i w =>
         if decide (i < Z.to_nat L)%nat
         then (if decide (b = x)
               then (if decide (w = a) then inv_distance i else 0%Qc)
               else 0%Qc)
         else 0%Qc) r
    = (if decide (b = x) then context_weight (take (Z.to_nat L) r) a else 0)%Qc).
  { destruct (decide (b = x)) as [Hbx|Hbx].
    - by rewrite context_weight_sum, sum_imap_take.
    - etrans; [|apply (sum_imap_zero r)]. apply sum_imap_ext.
      intros i w _. by destruct (decide (i < Z.to_nat L)%nat). }
  rewrite Hx. unfold window_weight. simpl. rewrite drop_0.
  replace (context_weight (reverse []) b) with 0%Qc by done.
  destruct (decide (a = x)); ring.
Qed.

Lemma region_weight_symmetric (S : Z) (r : region) (a b : token) :
  0 <= S ->
  windows_weight (_context_windows r S S) a b
  = windows_weight (_context_windows r S S) b a.
Proof.
  intros HS. induction r as [|x r IH]; [done|].
  rewrite !region_weight_cons, IH by done. ring.
Qed.

Lemma weight_at_scan_windows (d : gmap (token * token) Qc)
    (ws : list (region * token * region)) (a b : token) :
  weight_at (foldl scan_window d ws) (a, b)
  = (weight_at d (a, b) + windows_weight ws a b)%Qc.
Proof.
  revert d. induction ws as [|[[l w] rt] ws IH]; intros d.
  - simpl. ring.
  - cbn [foldl foldr windows_weight].
    rewrite IH, weight_at_scan_window. unfold windows_weight, window_weight.
    simpl. ring.
Qed.

Lemma weight_at_scan_from (L R : Z) (corpus : list region)
    (wc : list (token * nat)) (d : gmap (token * token) Qc) (a b : token) :
  weight_at (scan_from L R (wc, d) corpus).2 (a, b)
  = (weight_at d (a, b) + corpus_weight L R corpus a b)%Qc.
Proof.
  unfold scan_from. revert wc d.
  induction corpus as [|r corpus IH]; intros wc d; simpl; [ring|].
  unfold scan_region at 2. simpl.
  rewrite IH, weight_at_scan_windows. ring.
Qed.

Lemma corpus_weight_symmetric (S : Z) (corpus : list region) (a b : token) :
  0 <= S -> corpus_weight S S corpus a b = corpus_weight S S corpus b a.
Proof.
  intros HS. induction corpus as [|r corpus IH]; [done|].
  simpl. by rewrite IH, region_weight_symmetric.
Qed.

Lemma Qc_pos_ne_0 (w : Qc) : (0 < w)%Qc -> w <> 0%Qc.
Proof. intros Hw ->. by apply Qclt_not_eq in Hw. Qed.

(** A key that is absent weighs 0; a key that is present weighs more. *)
Lemma lookup_of_weight_at (L R : Z) (corpus : list region) (key : token * token) :
  (scan_corpus L R corpus).2 !! key
  = if decide (weight_at (scan_corpus L R corpus).2 key = 0%Qc) then None
    else Some (weight_at (scan_corpus L R corpus).2 key).
Proof.
  unfold weight_at.
  destruct ((scan_corpus L R corpus).2 !! key) as [w|] eqn:Hk;
    cbn [default from_option id]; case_decide as Hz; try done.
  exfalso. revert Hz. apply Qc_pos_ne_0.
  apply (all_positive_scan_from L R corpus [] ∅
           ltac:(intros k x Hx; by rewrite lookup_empty in Hx) key w Hk).
Qed.

Lemma scan_lookup_symmetric (S : Z) (corpus : list region) (a b : token) :
  0 <= S ->
  (scan_corpus S S corpus).2 !! (a, b) = (scan_corpus S S corpus).2 !! (b, a).
Proof.
  intros HS. rewrite !lookup_of_weight_at.
  assert (Hw : weight_at (scan_corpus S S corpus).2 (a, b)
               = weight_at (scan_corpus S S corpus).2 (b, a)).
  { unfold scan_corpus. rewrite !weight_at_scan_from.
    by rewrite corpus_weight_symmetric. }
  by rewrite Hw.
Qed.

(** With equal sizes the keys of the binary64 scan are symmetric. *)
Lemma scan_float_keys_symmetric (S : Z) (corpus : list region) (a b : token) :
  0 <= S ->
  is_Some ((scan_corpus_float S S corpus).2 !! (a, b))
  <-> is_Some ((scan_corpus_float S S corpus).2 !! (b, a)).
Proof.
  intros HS.
  destruct (scan_corpus_float_spec S S corpus) as [_ Hd].
  rewrite <- !elem_of_dom, Hd, !elem_of_dom.
  by rewrite (scan_lookup_symmetric S corpus a b HS).
Qed.

(** X17. With equal left and right sizes [S >= 0] (the only models the
    constructor builds) the keys of the co-occurrence map of a scan are
    symmetric: the pair [(a, b)] is a key exactly when [(b, a)] is, and the
    exact totals of the two pairs are equal. The binary64 weights the code
    stores need not be: on [a a b b] with size 3 the weights of [(a, b)]
    and [(b, a)] are sums of the same terms in different orders, and differ.
    With different sizes the keys need not be symmetric either: on [x y z]
    with sizes 0 and 2 the pair [(x, y)] is a key, of weight 1, and
    [(y, x)] is not. *)
Theorem scan_symmetric :
  (forall (S : Z) (corpus : list region) (a b : token),
      0 <= S ->
      (is_Some ((scan_corpus_float S S corpus).2 !! (a, b))
       <-> is_Some ((scan_corpus_float S S corpus).2 !! (b, a)))
      /\ corpus_weight S S corpus a b = corpus_weight S S corpus b a)
  /\ (scan_corpus_float 3 3 [["a"; "a"; "b"; "b"]]%string).2
       !! ("a", "b")%string
     <> (scan_corpus_float 3 3 [["a"; "a"; "b"; "b"]]%string).2
          !! ("b", "a")%string
  /\ (scan_corpus_float 0 2 [["x"; "y"; "z"]]%string).2 !! ("x", "y")%string
     = Some 1%float
  /\ (scan_corpus_float 0 2 [["x"; "y"; "z"]]%string).2 !! ("y", "x")%string
     = None.
Proof.
  split; [|split; [|split; vm_compute; reflexivity]].
  - intros S corpus a b HS. split.
    + by apply scan_float_keys_symmetric.
    + by apply corpus_weight_symmetric.
  - intros H. apply (f_equal (fmap Prim2SF)) in H.
    vm_compute in H. discriminate.
Qed.

Lemma scan_symmetric_witness :
  (is_Some ((scan_corpus_float 2 2 [["a"; "b"; "c"]; ["c"; "a"]]%string).2
              !! ("a", "c")%string)
   <-> is_Some ((scan_corpus_float 2 2 [["a"; "b"; "c"]; ["c"; "a"]]%string).2
                  !! ("c", "a")%string))
  /\ corpus_weight 2 2 [["a"; "b"; "c"]; ["c"; "a"]]%string
       "a"%string "c"%string
     = corpus_weight 2 2 [["a"; "b"; "c"]; ["c"; "a"]]%string
         "c"%string "a"%string.
Proof.
  apply (proj1 scan_symmetric 2 [["a"; "b"; "c"]; ["c"; "a"]]%string
           "a"%string "c"%string).
  lia.
Defined.


Lemma init_context_Ok_inv (context_size : pyval) (l r : Z) :
  init_context context_size = Py.Ok (l, r) ->
  exists z, context_size = PyInt z /\ l = z /\ r = z.
Proof.
  destruct context_size as [z| | | |items|items]; try done.
  - intros [= <- <-]. by exists z.
  - unfold init_context. by destruct items as [|a [|b [|c items]]].
Qed.

Lemma init_inv (e : Z) (context_size : pyval) (v m : Z) (x a : R)
    (p : parameters) (self : GloVe) :
  __init__ e context_size v m x a p = Py.Ok self ->
  exists z, context_size = PyInt z
            /\ left_context self = z /\ right_context self = z
            /\ vocab_size self = v /\ min_occurrances self = m
            /\ coocurrence_matrix self = None.
Proof.
  unfold __init__.
  destruct (init_context context_size) as [[l r]|err] eqn:Hc; [|done].
  apply init_context_Ok_inv in Hc as (z & -> & -> & ->).
  cbn [mbind Py.result_bind mret Py.result_ret].
  intros [= <-]. by exists z.
Qed.

(** X19. Every model the constructor returns has the same left and right
    window size (a pair never gets through), starts without a matrix, and,
    when that size is not negative, scans every corpus into a co-occurrence
    map with symmetric keys: [(t, u)] is a key exactly when [(u, t)] is, and
    the exact totals of the two pairs are equal. *)
Theorem constructed_model_symmetric (e : Z) (context_size : pyval) (v m : Z)
    (x a : R) (p : parameters) (self : GloVe) :
  __init__ e context_size v m x a p = Py.Ok self ->
  left_context self = right_context self
  /\ coocurrence_matrix self = None
  /\ (0 <= left_context self ->
      forall (corpus : list region) (t u : token),
        (is_Some ((scan_corpus_float (left_context self) (right_context self)
                     corpus).2 !! (t, u))
         <-> is_Some ((scan_corpus_float (left_context self)
                         (right_context self) corpus).2 !! (u, t)))
        /\ corpus_weight (left_context self) (right_context self) corpus t u
           = corpus_weight (left_context self) (right_context self) corpus
               u t).
Proof.
  intros (z & _ & HL & HR & _ & _ & Hm)%init_inv.
  split; [congruence|]. split; [done|].
  intros Hz corpus t u. rewrite HL, HR. split.
  - apply scan_float_keys_symmetric. lia.
  - apply corpus_weight_symmetric. lia.
Qed.

Lemma constructed_model_symmetric_witness :
  let self := {| embedding_size := 2; left_context := 3; right_context := 3;
                 vocab_size := 10; min_occurrances := 1;
                 alpha := default_alpha; x_max := default_x_max;
                 focal_embeddings := init_focal_embeddings example_parameters;
                 context_embeddings := init_context_embeddings example_parameters;
                 focal_biases := init_focal_biases example_parameters;
                 context_biases := init_context_biases example_parameters;
                 coocurrence_matrix := None; words := None;
                 word_to_id := None |} in
  left_context self = right_context self
  /\ coocurrence_matrix self = None
  /\ (0 <= left_context self ->
      forall (corpus : list region) (t u : token),
        (is_Some ((scan_corpus_float (left_context self) (right_context self)
                     corpus).2 !! (t, u))
         <-> is_Some ((scan_corpus_float (left_context self)
                         (right_context self) corpus).2 !! (u, t)))
        /\ corpus_weight (left_context self) (right_context self) corpus t u
           = corpus_weight (left_context self) (right_context self) corpus
               u t).
Proof.
  apply (constructed_model_symmetric 2 (PyInt 3) 10 1 default_x_max
           default_alpha example_parameters).
  reflexivity.
Defined.

Lemma select_words_empty (vs mo : Z) (wc : list (token * nat)) :
  vs <= 0 \/ (forall w n, (w, n) ∈ wc -> Z.of_nat n < mo) ->
  select_words vs mo wc = [].
Proof.
  intros [Hvs|Hmo]; unfold select_words, most_common.
  - replace (Z.to_nat vs) with 0%nat by lia. done.
  - destruct (filter _ _) as [|[w n] l] eqn:Hf; [done|]. exfalso.
    assert (Hin : (w, n) ∈ filter (fun p : token * nat => mo <= Z.of_nat p.2)
                    (take (Z.to_nat vs) (sorted_desc wc)))
      by (rewrite Hf; left).
    apply list_elem_of_filter in Hin as [Hn Hin]. simpl in Hn.
    apply elem_of_take in Hin as (i & Hi & _).
    apply list_elem_of_lookup_2 in Hi. rewrite sorted_desc_perm in Hi.
    specialize (Hmo w n Hi). lia.
Qed.

(** X20. When the vocabulary comes out empty ([vocab_size <= 0], or every
    word is rarer than [min_occurrances]), a call of [fit] that gets past
    the empty-corpus check returns normally and stores the empty word
    list, the empty id map and the empty matrix: every co-occurrence entry
    is dropped. *)
Theorem fit_empty_vocabulary (self : GloVe) (corpus : list region) :
  vocab_size self <= 0
  \/ (forall w n,
         (w, n) ∈ (scan_corpus (left_context self) (right_context self)
                     corpus).1 ->
         Z.of_nat n < min_occurrances self) ->
  (fit self corpus).2 <> Some (Py.ValueError empty_corpus_message) ->
  (fit self corpus).2 = None
  /\ words (fit self corpus).1 = Some []
  /\ word_to_id (fit self corpus).1 = Some ∅
  /\ coocurrence_matrix (fit self corpus).1 = Some ∅.
Proof.
  intros Hempty Hpast.
  pose proof (select_words_empty _ _ _ Hempty) as Hws.
  destruct (fit_outcome_cases self corpus)
    as [[_ Hfit]|[(_ & Hk & _)|(_ & _ & Hfit)]].
  - rewrite Hfit in Hpast. by destruct Hpast.
  - rewrite Hws in Hk. destruct Hk as (a & b & c & _ & Ha & _).
    by apply elem_of_nil in Ha.
  - rewrite Hfit, Hws. done.
Qed.

Lemma fit_empty_vocabulary_witness :
  (fit (toy_model 1 0 1) [["a"; "b"]]%string).2 = None
  /\ words (fit (toy_model 1 0 1) [["a"; "b"]]%string).1 = Some []
  /\ word_to_id (fit (toy_model 1 0 1) [["a"; "b"]]%string).1 = Some ∅
  /\ coocurrence_matrix (fit (toy_model 1 0 1) [["a"; "b"]]%string).1 = Some ∅.
Proof.
  apply (fit_empty_vocabulary (toy_model 1 0 1) [["a"; "b"]]%string).
  - left. simpl. lia.
  - vm_compute. discriminate.
Defined.

(** ** fit and forward together *)

Lemma forward_same_parameters (self1 self2 : GloVe) (fs cs : list nat)
    (xs : list R) :
  alpha self1 = alpha self2 -> x_max self1 = x_max self2 ->
  focal_embeddings self1 = focal_embeddings self2 ->
  context_embeddings self1 = context_embeddings self2 ->
  focal_biases self1 = focal_biases self2 ->
  context_biases self1 = context_biases self2 ->
  forward self1 fs cs xs = forward self2 fs cs xs.
Proof.
  intros Ha Hx H1 H2 H3 H4. unfold forward, weight_factor.
  by rewrite Ha, Hx, H1, H2, H3, H4.
Qed.

(** X21. [forward] reads only the parameter tables, [x_max] and [alpha]:
    whatever a call of [fit] did to the object (stored a vocabulary, a
    matrix, or raised half-way), the loss of every batch is the same after
    the call as before it, errors included. *)
Theorem forward_after_fit (self : GloVe) (corpus : list region)
    (fs cs : list nat) (xs : list R) :
  forward (fit self corpus).1 fs cs xs = forward self fs cs xs.
Proof.
  apply forward_same_parameters;
    destruct (fit_outcome_cases self corpus)
      as [[_ ->]|[(_ & _ & ->)|(_ & _ & ->)]]; done.
Qed.
